(** * Olavm: a shallow embedding of the executor, the immediate parser and the
    operand printer/parser, with the properties of the specification. *)

From Stdlib Require Import ZArith List String Ascii Bool Lia.
Import ListNotations.
Open Scope Z_scope.

(* ------------------------------------------------------------------ *)
(** ** Goldilocks field values (plonky2 [GoldilocksField]) *)

Module Field.

(** [GoldilocksField::ORDER] = 2^64 - 2^32 + 1 *)
Definition ORDER : Z := 18446744069414584321.

(** a [u64] *)
Definition U64_MAX : Z := 18446744073709551615.

(** [to_canonical_u64]: the raw [u64] is at most [2^64 - 1 < 2 * ORDER],
    so one conditional subtraction canonicalises it. *)
Definition canon (x : Z) : Z := if x >=? ORDER then x - ORDER else x.

(** [PartialEq for GoldilocksField] compares canonical values. *)
Definition feq (x y : Z) : bool := canon x =? canon y.

Definition is_one (x : Z) : bool := feq x 1.

(** [NEG_ONE] *)
Definition NEG_ONE : Z := ORDER - 1.

(** [EPSILON] = 2^64 - ORDER *)
Definition EPSILON : Z := 4294967295.

Definition TWO64 : Z := 18446744073709551616.

(** [Add for GoldilocksField]: adds the canonical right operand to the raw
    left one, folding each [u64] wrap-around back with [EPSILON]; the result
    is a raw [u64] that need not be canonical. *)
Definition add_raw (x y : Z) : Z :=
  let s1 := x + canon y in
  let s1w := s1 mod TWO64 in
  let s2 := s1w + (if s1 >=? TWO64 then EPSILON else 0) in
  let s2w := s2 mod TWO64 in
  if s2 >=? TWO64 then s2w + EPSILON else s2w.

(** [Sub for GoldilocksField]: subtracts the canonical right operand from
    the raw left one, folding each [u64] borrow back with [EPSILON]. *)
Definition sub_raw (x y : Z) : Z :=
  let d1 := x - canon y in
  let d1w := d1 mod TWO64 in
  let d2 := d1w - (if d1 <? 0 then EPSILON else 0) in
  let d2w := d2 mod TWO64 in
  if d2 <? 0 then d2w - EPSILON else d2w.

(** [Mul for GoldilocksField]: [reduce128] of the 128-bit product of the
    raw values, with [add_no_canonicalize_trashing_input] at the end; the
    result is a raw [u64] that need not be canonical. *)
Definition mul_raw (x y : Z) : Z :=
  let prod := x * y in
  let x_lo := prod mod TWO64 in
  let x_hi := prod / TWO64 in
  let x_hi_hi := Z.shiftr x_hi 32 in
  let x_hi_lo := Z.land x_hi EPSILON in
  let t0 := if x_lo <? x_hi_hi then (x_lo - x_hi_hi + TWO64) - EPSILON
            else x_lo - x_hi_hi in
  let t1 := x_hi_lo * EPSILON in
  let s := t0 + t1 in
  if s >=? TWO64 then (s - TWO64) + EPSILON else s.

(** [x^e mod m] by square and multiply *)
Fixpoint pow_mod_pos (b : Z) (e : positive) (m : Z) : Z :=
  match e with
  | xH => b mod m
  | xO e' => let h := pow_mod_pos b e' m in (h * h) mod m
  | xI e' => let h := pow_mod_pos b e' m in (h * h * b) mod m
  end.

(** [inverse] of a nonzero element, [x^(ORDER - 2)]; [None] is the panic
    "Tried to invert zero". *)
Definition inverse (x : Z) : option Z :=
  if canon x =? 0 then None
  else Some (pow_mod_pos (canon x) (Z.to_pos (ORDER - 2)) ORDER).

(** canonical field addition, multiplication and subtraction *)
Definition fadd (x y : Z) : Z := (canon x + canon y) mod ORDER.
Definition fmul (x y : Z) : Z := (canon x * canon y) mod ORDER.
Definition fsub (x y : Z) : Z := (canon x - canon y) mod ORDER.

End Field.

(* ------------------------------------------------------------------ *)
(** ** Rust integer parsing and hex formatting, on lists of ASCII characters *)

Module RustStr.

Definition l2s := string_of_list_ascii.
Definition s2l := list_ascii_of_string.

(** [char::to_digit(radix)] for radix 10 and 16 (both letter cases) *)
Definition to_digit (radix : Z) (c : ascii) : option Z :=
  let n := Z.of_nat (nat_of_ascii c) in
  let d :=
    if (48 <=? n) && (n <=? 57) then Some (n - 48)
    else if (97 <=? n) && (n <=? 122) then Some (n - 97 + 10)
    else if (65 <=? n) && (n <=? 90) then Some (n - 65 + 10)
    else None in
  match d with
  | Some v => if v <? radix then Some v else None
  | None => None
  end.

(** value of a digit string read most significant first, accumulated
    from [acc] *)
Fixpoint digits_acc (radix acc : Z) (l : list ascii) : option Z :=
  match l with
  | [] => Some acc
  | c :: r =>
      match to_digit radix c with
      | Some d => digits_acc radix (acc * radix + d) r
      | None => None
      end
  end.

(** [from_str_radix] for an integer type with range [lo, hi]
    ([signed] tells whether a leading '-' is allowed).  The source checks
    overflow after each digit; the partial values are monotone in the
    digits, so checking the final value is the same test. *)
Definition from_str_radix (signed : bool) (radix lo hi : Z) (l : list ascii)
  : option Z :=
  match l with
  | [] => None
  | c :: r =>
      let '(pos, ds) :=
        if (c =? "+")%char then (true, r)
        else if signed && (c =? "-")%char then (false, r)
        else (true, l) in
      match ds with
      | [] => None
      | _ =>
          match digits_acc radix 0 ds with
          | Some v =>
              let v' := if pos then v else - v in
              if (lo <=? v') && (v' <=? hi) then Some v' else None
          | None => None
          end
      end
  end.

Definition parse_u64_radix (radix : Z) (l : list ascii) : option Z :=
  from_str_radix false radix 0 Field.U64_MAX l.

Definition I128_MIN : Z := - 2 ^ 127.
Definition I128_MAX : Z := 2 ^ 127 - 1.

Definition parse_i128_radix (radix : Z) (l : list ascii) : option Z :=
  from_str_radix true radix I128_MIN I128_MAX l.

(** [str::trim_start_matches("0x")]: strips every leading "0x" *)
Fixpoint trim_0x (l : list ascii) : list ascii :=
  match l with
  | c1 :: ((c2 :: r) as tl) =>
      if ((c1 =? "0") && (c2 =? "x"))%char then trim_0x r else l
  | _ => l
  end.

(** [str::starts_with("0x")] *)
Definition starts_with_0x (l : list ascii) : bool :=
  match l with
  | c1 :: c2 :: _ => ((c1 =? "0") && (c2 =? "x"))%char
  | _ => false
  end.

Definition hex_char (d : Z) : ascii :=
  if d <? 10 then ascii_of_nat (Z.to_nat (48 + d))
  else ascii_of_nat (Z.to_nat (97 + d - 10)).

(** lowercase hex digits of [v]; sixteen rounds cover every [u64] *)
Fixpoint hex_digits_fuel (fuel : nat) (v : Z) : list ascii :=
  match fuel with
  | O => []
  | S f =>
      if v <? 16 then [hex_char v]
      else hex_digits_fuel f (v / 16) ++ [hex_char (v mod 16)]
  end.

(** [format!("{:#x}", v)] for a [u64] *)
Definition fmt_hex (v : Z) : list ascii :=
  "0"%char :: "x"%char :: hex_digits_fuel 16 v.

End RustStr.

(* ------------------------------------------------------------------ *)
(** ** [core::vm::operands]: immediates and operands *)

Module Operands.
Import RustStr.

(** [ImmediateValue { hex: String }] *)
Record ImmediateValue := { hex : list ascii }.

(** [ImmediateValue::ORDER] *)
Definition ORDER : Z := 18446744069414584321.

(** [ImmediateValue::to_u64] *)
Definition to_u64 (v : ImmediateValue) : option Z :=
  parse_u64_radix 16 (trim_0x (hex v)).

(** Outcome of [ImmediateValue::from_str]: [Ok], [Err(message)], or a
    panic of the debug build on an arithmetic overflow. *)
Inductive imm_result :=
| ImmOk (v : ImmediateValue)
| ImmErr (msg : list ascii)
| ImmPanic.

Definition msg_not_number (s : list ascii) : list ascii :=
  s2l "Immediate is not a valid number: " ++ s.
Definition msg_overflow (s : list ascii) : list ascii :=
  s2l "Immediate overflow: " ++ s.

(** [impl FromStr for ImmediateValue] *)
Definition imm_from_str (s : list ascii) : imm_result :=
  if starts_with_0x s then
    match parse_u64_radix 16 (trim_0x s) with
    | None => ImmErr (msg_not_number s)
    | Some value =>
        if value >=? ORDER then ImmErr (msg_overflow s)
        else ImmOk {| hex := fmt_hex value |}
    end
  else
    match parse_i128_radix 10 s with
    | None => ImmErr (msg_not_number s)
    | Some value =>
        let signed_order := ORDER in
        if value >=? signed_order then ImmErr (msg_overflow s)
        (* [value * -1] overflows [i128] exactly at [i128::MIN] *)
        else if value =? I128_MIN then ImmPanic
        else if value * -1 >=? signed_order then ImmErr (msg_overflow s)
        else
          let actual_value := if value <? 0 then signed_order - Z.abs value
                              else value in
          ImmOk {| hex := fmt_hex actual_value |}
    end.

(** Modelled from the spec: [OlaRegister] (the file [vm/hardware.rs] is not
    in the sources): registers R0..R8, printed and parsed as "r0".."r8". *)
Inductive OlaRegister := R0 | R1 | R2 | R3 | R4 | R5 | R6 | R7 | R8.

Definition reg_index (r : OlaRegister) : nat :=
  match r with
  | R0 => 0 | R1 => 1 | R2 => 2 | R3 => 3 | R4 => 4
  | R5 => 5 | R6 => 6 | R7 => 7 | R8 => 8
  end%nat.

Definition reg_of_index (n : nat) : option OlaRegister :=
  match n with
  | 0 => Some R0 | 1 => Some R1 | 2 => Some R2 | 3 => Some R3 | 4 => Some R4
  | 5 => Some R5 | 6 => Some R6 | 7 => Some R7 | 8 => Some R8
  | _ => None
  end%nat.

Definition reg_token (r : OlaRegister) : list ascii :=
  ["r"%char; ascii_of_nat (48 + reg_index r)].

(** [OlaRegister::from_str] *)
Definition reg_from_str (l : list ascii) : option OlaRegister :=
  match l with
  | ["r"%char; d] =>
      let n := nat_of_ascii d in
      if (48 <=? n)%nat then reg_of_index (n - 48) else None
  | _ => None
  end.

(** Modelled from the spec: [OlaSpecialRegister] (in [vm/hardware.rs], not in
    the sources): [PC] and [PSP], printed and parsed as "pc" and "psp". *)
Inductive OlaSpecialRegister := PC | PSP.

Definition special_token (r : OlaSpecialRegister) : list ascii :=
  match r with PC => s2l "pc" | PSP => s2l "psp" end.

Definition special_from_str (l : list ascii) : option OlaSpecialRegister :=
  if list_eq_dec ascii_dec l (s2l "pc") then Some PC
  else if list_eq_dec ascii_dec l (s2l "psp") then Some PSP
  else None.

(** [enum OlaOperand] *)
Inductive OlaOperand :=
| ImmediateOperand (value : ImmediateValue)
| RegisterOperand (register : OlaRegister)
| RegisterWithOffset (register : OlaRegister) (offset : ImmediateValue)
| RegisterWithFactor (register : OlaRegister) (factor : ImmediateValue)
| SpecialReg (special_reg : OlaSpecialRegister).

(** [OlaOperand::get_asm_token] *)
Definition get_asm_token (o : OlaOperand) : list ascii :=
  match o with
  | ImmediateOperand v => hex v
  | RegisterOperand r => reg_token r
  | RegisterWithOffset r off =>
      ["["%char] ++ reg_token r ++ [","%char] ++ hex off ++ ["]"%char]
  | SpecialReg sr => special_token sr
  | RegisterWithFactor r f => hex f ++ ["*"%char] ++ reg_token r
  end.

(** the regular expressions of [OlaOperand::from_str] *)
Definition is_digit (c : ascii) : bool :=
  let n := nat_of_ascii c in ((48 <=? n) && (n <=? 57))%nat.

(** [[[:digit:]]+] *)
Definition digits_plus (l : list ascii) : bool :=
  match l with [] => false | _ => forallb is_digit l end.

(** [-?[[:digit:]]+] *)
Definition signed_digits (l : list ascii) : bool :=
  match l with
  | "-"%char :: r => digits_plus r
  | _ => digits_plus l
  end.

(** [r[0-8]] *)
Definition reg_pattern (l : list ascii) : bool :=
  match l with
  | ["r"%char; d] => let n := nat_of_ascii d in ((48 <=? n) && (n <=? 56))%nat
  | _ => false
  end.

(** [^\[(?P<reg>r[0-8]),(?P<offset>-?[[:digit:]]+)\]$] *)
Definition match_reg_offset (l : list ascii)
  : option (list ascii * list ascii) :=
  match l with
  | "["%char :: c1 :: c2 :: ","%char :: rest =>
      match rev rest with
      | "]"%char :: rbody =>
          let body := rev rbody in
          if reg_pattern [c1; c2] && signed_digits body
          then Some ([c1; c2], body) else None
      | _ => None
      end
  | _ => None
  end.

(** Outcome of [OlaOperand::from_str]: [Ok], [Err(message)], or the panic
    of the immediate parser. *)
Inductive operand_result :=
| OpOk (o : OlaOperand)
| OpErr (msg : list ascii)
| OpPanic.

(** [impl FromStr for OlaOperand] *)
Definition operand_from_str (s : list ascii) : operand_result :=
  match match_reg_offset s with
  | Some (str_reg, str_offset) =>
      match reg_from_str str_reg with
      | None => OpErr (s2l "invalid register")
      | Some register =>
          match imm_from_str str_offset with
          | ImmOk offset => OpOk (RegisterWithOffset register offset)
          | ImmErr m => OpErr m
          | ImmPanic => OpPanic
          end
      end
  | None =>
      if reg_pattern s then
        match reg_from_str s with
        | Some register => OpOk (RegisterOperand register)
        | None => OpErr (s2l "invalid register")
        end
      else if signed_digits s then
        match imm_from_str s with
        | ImmOk value => OpOk (ImmediateOperand value)
        | ImmErr m => OpErr m
        | ImmPanic => OpPanic
        end
      else
        match special_from_str s with
        | Some sr => OpOk (SpecialReg sr)
        | None => OpErr (s2l "invalid operand: " ++ s)
        end
  end.

End Operands.

(* ------------------------------------------------------------------ *)
(** ** [executor]: the processor of [executor/src/lib.rs] *)

Module Exec.
Import Field.

(** Mnemonics of the decoded text instructions ([ops[0]]). *)
Inductive mnemonic :=
| MOV | NOT | EQ | NEQ | ASSERT | CJMP | JMP | ADD | MUL | SUB | CALL | RET
| MSTORE | MLOAD | RANGE | AND | OR | XOR | GTE | END | SSTORE | SLOAD
| POSEIDON.

(** The halting reasons: a [ProcessorError], a panic ([unwrap], [assert!],
    an index out of bounds or a [u64] underflow of the debug build), or a
    fault of the memory. *)
Inductive processor_error :=
| AssertFail (left right : Z)
| U32RangeCheckFail
| ParseIntError.

Inductive halt :=
| HErr (e : processor_error)
| HPanic
| HMemFault.

Inductive res (A : Type) :=
| ROk (a : A)
| RHalt (h : halt).
Arguments ROk {A} a.
Arguments RHalt {A} h.

Definition bind {A B} (r : res A) (k : A -> res B) : res B :=
  match r with ROk a => k a | RHalt h => RHalt h end.

Definition fmap_res {A B} (r : res A) (f : A -> B) : res B :=
  match r with ROk a => ROk (f a) | RHalt h => RHalt h end.

Notation "'let*' x := r 'in' k" := (bind r (fun x => k))
  (at level 200, x pattern, r at level 100, k at level 200).

Definition panic {A} : res A := RHalt HPanic.

(** [u64] subtraction of the debug build *)
Definition sub_u64 (a b : Z) : res Z := if a <? b then panic else ROk (a - b).

(** [MemoryType], [MemoryOperation] and [FilterLockForMain]: [is_rw] is 1
    for read-write memory and 0 for write-once memory, as
    [gen_memory_table] reads it. *)
Definition WriteOnce : Z := 0.
Definition ReadWrite : Z := 1.
Definition OpRead : Z := 0.
Definition OpWrite : Z := 1.
Definition LockFalse : Z := 0.
Definition LockTrue : Z := 1.

(** One cell of the per-address history; [op] is the opcode mask
    [1 << Opcode::X], written as its mnemonic ([None] for the 0 of the
    prophet accesses). *)
Record cell := {
  c_clk : Z; c_op : option mnemonic; c_is_rw : Z; c_is_write : Z;
  c_filter : Z; c_prophet : Z; c_poseidon : Z; c_ecdsa : Z; c_value : Z }.

(** [MemoryTree.trace : BTreeMap<u64, Vec<MemoryCell>>] as an association
    list kept sorted by address. *)
Definition mem := list (Z * list cell).

Fixpoint mem_find (m : mem) (a : Z) : option (list cell) :=
  match m with
  | [] => None
  | (k, cs) :: r => if k =? a then Some cs else mem_find r a
  end.

(** append a cell to the history of [a], creating it in order *)
Fixpoint mem_push (m : mem) (a : Z) (c : cell) : mem :=
  match m with
  | [] => [(a, [c])]
  | (k, cs) :: r =>
      if k =? a then (k, cs ++ [c]) :: r
      else if a <? k then (a, [c]) :: m
      else (k, cs) :: mem_push r a c
  end.

(** Modelled from the spec: [MemoryTree::write] (the file [memory.rs] is
    not in the sources).  It appends a cell; for a write-once access an
    existing cell at the same address is a fault. *)
Definition mem_write (m : mem) (addr clk : Z) (op : option mnemonic)
  (is_rw is_write filter rp rpos recd value : Z) : res mem :=
  let c := {| c_clk := clk; c_op := op; c_is_rw := is_rw;
              c_is_write := is_write; c_filter := filter; c_prophet := rp;
              c_poseidon := rpos; c_ecdsa := recd; c_value := value |} in
  if is_rw =? WriteOnce then
    match mem_find m addr with
    | Some (_ :: _) => RHalt HMemFault
    | _ => ROk (mem_push m addr c)
    end
  else ROk (mem_push m addr c).

(** Modelled from the spec: [MemoryTree::read].  It appends a read cell
    whose value is the latest value at the address; reading an address
    with no history is a fault. *)
Definition mem_read (m : mem) (addr clk : Z) (op : option mnemonic)
  (is_rw is_write filter rp rpos recd : Z) : res (Z * mem) :=
  match mem_find m addr with
  | Some cs =>
      match rev cs with
      | last :: _ =>
          let v := c_value last in
          let c := {| c_clk := clk; c_op := op; c_is_rw := is_rw;
                      c_is_write := is_write; c_filter := filter;
                      c_prophet := rp; c_poseidon := rpos; c_ecdsa := recd;
                      c_value := v |} in
          ROk (v, mem_push m addr c)
      | [] => RHalt HMemFault
      end
  | None => RHalt HMemFault
  end.

(** [MEM_SPAN_SIZE = u32::MAX] and the region starts *)
Definition MEM_SPAN_SIZE : Z := 4294967295.
Definition PSP_START_ADDR : Z := ORDER - MEM_SPAN_SIZE.
Definition POSEIDON_START_ADDR : Z := ORDER - 2 * MEM_SPAN_SIZE.
Definition ECDSA_START_ADDR : Z := ORDER - 3 * MEM_SPAN_SIZE.
Definition HP_START_ADDR : Z := ORDER - 3 * MEM_SPAN_SIZE.

(** [REGION_SPAN = 2 ^ 32 - 1]: in Rust [-] binds tighter than the [^]
    (exclusive or), so the constant is [2 xor 31 = 29]. *)
Definition REGION_SPAN : Z := Z.lxor 2 (32 - 1).

(** [FP_REG_INDEX] *)
Definition FP_REG_INDEX : nat := 9.
(** [REGISTER_NUM] of [core::program] (not in the sources): the file's
    comment names r15, so sixteen registers. *)
Definition REGISTER_NUM : nat := 16.
(** [REG_NOT_USED] of [decode.rs] (not in the sources): the register
    number the decoder gives to the PSP operand. *)
Definition REG_NOT_USED : nat := 255.

Definition PROPHET_INPUT_REG_START_INDEX : nat := 1.
Definition PROPHET_INPUT_REG_END_INDEX : nat := 4.
Definition PROPHET_INPUT_FP_START_OFFSET : Z := 3.

(** The region dispatch of the [mload] arm: flags
    (prophet, poseidon, ecdsa) and [is_rw] as a function of the address. *)
Definition mload_region (read_addr : Z) : Z * Z * Z * Z :=
  if read_addr >=? PSP_START_ADDR then (1, 0, 0, WriteOnce)
  else if read_addr >=? POSEIDON_START_ADDR then (0, 1, 0, WriteOnce)
  else if read_addr >=? ECDSA_START_ADDR then (0, 0, 1, WriteOnce)
  else (0, 0, 0, ReadWrite).


(** A token of a decoded text instruction: a decimal [u64] or a register
    name "r<i>" (the PSP operand is "r<REG_NOT_USED>"). *)
Inductive tok := TImm (v : Z) | TReg (i : nat).

(** a decoded instruction: mnemonic, the tokens after it, and its binary
    length [step] *)
Record instr := { mn : mnemonic; args : list tok; step : Z }.

(** [program.trace.instructions] (pc to decoded instruction) and the
    number of binary words [program.instructions.len()] *)
Record program := { instrs_len : Z; table : list (Z * instr) }.

Fixpoint lookup {A} (l : list (Z * A)) (k : Z) : option A :=
  match l with
  | [] => None
  | (k', a) :: r => if k' =? k then Some a else lookup r k
  end.

(** [OlaProphetInput] and [OlaProphet] *)
Record prophet_input := { length : Z; is_ref : bool }.
Record prophet := { code : list ascii; inputs : list prophet_input }.

(** The scripting interpreter, a collaborator: it gets the body of the
    code, the heap pointer pushed into the context, and the inputs; [None]
    is an [Err] of [interpreter.run]. *)
Inductive number_ret := Single (n : Z) | Multiple (ns : list Z).
Definition interpreter := list ascii -> Z -> list Z -> option number_ret.

(** A cell of [StorageTree.trace] (the file [storage.rs] is not in the
    sources): its clock and its value, a [TreeValue] of four elements. *)
Record scell := { s_clk : Z; s_value : list Z }.

(** [StorageTree.trace : HashMap<TreeKey, Vec<StorageCell>>] *)
Definition storage_trace := list (list Z * list scell).

(** a [WitnessStorageLog]: a write or a read log, its tree key and value *)
Record slog := { sl_write : bool; sl_key : list Z; sl_value : list Z }.

(** [Process] (the register selector, which only feeds trace columns, is
    left out) *)
Record process := {
  clk : Z; ctx_registers_stack : list Z; registers : list Z; pc : Z;
  psp : Z; hp : Z; memory : mem; storage : storage_trace;
  storage_log : list slog }.

(** The collaborators of the storage and Poseidon opcodes, none of which is
    in the sources:
    - [hashed_key]: the tree key of [StorageKey::new(address, slot_key).hashed_key()];
    - [account_read]: [account_tree.storage.hash] at the leaf index of a
      tree key, converted by [u8_arr_to_tree_key]; [None] when the tree
      holds nothing there;
    - [storage_write] and [storage_read]: [StorageTree::write] and
      [StorageTree::read] at a clock and a tree key (with the value for a
      write);
    - the Poseidon permutation [calculate_poseidon_and_generate_intermediate_trace_row]
      (its output [row.0]) and the lengths [POSEIDON_INPUT_VALUE_LEN] and
      [POSEIDON_OUTPUT_VALUE_LEN];
    - [storage_tables]: what [gen_storage_hash_table] and
      [gen_storage_table] do with a non-empty storage log and the storage
      trace: the range-check values they append and the storage trace they
      leave.  Both depend on [AccountTree::process_block] and on the order
      of [StorageCell]. *)
Record host := {
  hashed_key : Z -> list Z -> list Z;
  account_read : list Z -> option (list Z);
  storage_write : storage_trace -> Z -> list Z -> list Z -> res storage_trace;
  storage_read : storage_trace -> Z -> list Z -> res storage_trace;
  poseidon_permutation : list Z -> list Z;
  POSEIDON_INPUT_VALUE_LEN : nat;
  POSEIDON_OUTPUT_VALUE_LEN : nat;
  storage_tables : list slog -> storage_trace -> res (list Z * storage_trace) }.

(** the trace: CPU rows [(clk, pc)], range-check values and memory rows *)
Record mem_row := {
  r_addr : Z; r_clk : Z; r_is_rw : Z; r_op : option mnemonic;
  r_is_write : Z; r_diff_addr : Z; r_diff_addr_inv : Z; r_diff_clk : Z;
  r_diff_addr_cond : Z; r_filter : Z; r_rw_addr_unchanged : Z;
  r_prophet : Z; r_poseidon : Z; r_ecdsa : Z; r_value : Z; r_rc_value : Z }.

Record trace := { cpu : list (Z * Z); rangecheck : list Z; mem_rows : list mem_row }.

Definition set_registers (p : process) (rs : list Z) : process :=
  {| clk := clk p; ctx_registers_stack := ctx_registers_stack p;
     registers := rs; pc := pc p; psp := psp p; hp := hp p;
     memory := memory p; storage := storage p; storage_log := storage_log p |}.
Definition set_pc (p : process) (v : Z) : process :=
  {| clk := clk p; ctx_registers_stack := ctx_registers_stack p;
     registers := registers p; pc := v; psp := psp p; hp := hp p;
     memory := memory p; storage := storage p; storage_log := storage_log p |}.
Definition set_memory (p : process) (m : mem) : process :=
  {| clk := clk p; ctx_registers_stack := ctx_registers_stack p;
     registers := registers p; pc := pc p; psp := psp p; hp := hp p;
     memory := m; storage := storage p; storage_log := storage_log p |}.
Definition set_clk (p : process) (v : Z) : process :=
  {| clk := v; ctx_registers_stack := ctx_registers_stack p;
     registers := registers p; pc := pc p; psp := psp p; hp := hp p;
     memory := memory p; storage := storage p; storage_log := storage_log p |}.
Definition set_psp_hp (p : process) (vpsp vhp : Z) : process :=
  {| clk := clk p; ctx_registers_stack := ctx_registers_stack p;
     registers := registers p; pc := pc p; psp := vpsp; hp := vhp;
     memory := memory p; storage := storage p; storage_log := storage_log p |}.
Definition set_storage (p : process) (st : storage_trace) (log : list slog) : process :=
  {| clk := clk p; ctx_registers_stack := ctx_registers_stack p;
     registers := registers p; pc := pc p; psp := psp p; hp := hp p;
     memory := memory p; storage := st; storage_log := log |}.

(** [self.registers[i]], out of bounds panics *)
Definition reg (p : process) (i : nat) : res Z :=
  match nth_error (registers p) i with Some v => ROk v | None => panic end.

(** [self.registers[i] = v] *)
Fixpoint list_set (l : list Z) (i : nat) (v : Z) : option (list Z) :=
  match l, i with
  | [], _ => None
  | _ :: r, O => Some (v :: r)
  | x :: r, S j => option_map (cons x) (list_set r j v)
  end.

Definition set_reg (p : process) (i : nat) (v : Z) : res process :=
  match list_set (registers p) i v with
  | Some rs => ROk (set_registers p rs)
  | None => panic
  end.

(** [get_reg_index]: a token that is not a register name panics *)
Definition get_reg_index (t : tok) : res nat :=
  match t with TReg i => ROk i | TImm _ => panic end.

(** [get_index_value]: an immediate, the PSP, or a register *)
Definition get_index_value (p : process) (t : tok) : res Z :=
  match t with
  | TImm v => ROk v
  | TReg i => if Nat.eqb i REG_NOT_USED then ROk (psp p) else reg p i
  end.

Definition nth_tok (l : list tok) (i : nat) : res tok :=
  match nth_error l i with Some t => ROk t | None => panic end.

(** the [assert_eq!(ops.len(), n)] of each arm ([ops] counts the mnemonic) *)
Definition arity (i : instr) (n : nat) : res unit :=
  if Nat.eqb (List.length (args i)) n then ROk tt else panic.

(** [u64::from_str_radix(ops[3], 10)] of the memory arms; a register name
    does not parse and leaves the offset at 0 *)
Definition offset_of (i : instr) : Z :=
  match args i with
  | [_; _; TImm v] => v
  | _ => 0
  end.

Definition b2z (b : bool) : Z := if b then 1 else 0.

(** [Process::read_prophet_input]: the next input comes from the register
    [reg_index] while it is below [PROPHET_INPUT_REG_END_INDEX], then from
    the frame slot [fp - k]; a reference input is read once more from
    memory. *)
Definition read_prophet_input (p : process) (input : prophet_input)
  (reg_index : nat) (fp : Z) : res (Z * process * nat * Z) :=
  let* (value, p1, ri, fp1) :=
    (if negb (Nat.eqb PROPHET_INPUT_REG_END_INDEX reg_index) then
       let* v := reg p reg_index in ROk (v, p, S reg_index, fp)
     else
       let* fpv := reg p FP_REG_INDEX in
       let* a := sub_u64 fpv fp in
       let* (v, m) := mem_read (memory p) a (clk p) None ReadWrite OpRead
                         LockFalse 0 0 0 in
       ROk (canon v, set_memory p m, reg_index, fp + 1)) in
  if is_ref input then
    let* (v, m) := mem_read (memory p1) value (clk p1) None ReadWrite OpRead
                      LockFalse 0 0 0 in
    ROk (canon v, set_memory p1 m, ri, fp1)
  else ROk (value, p1, ri, fp1).

(** [input.length] reads of one input (the source's branch for length 1 is
    the same single read) *)
Fixpoint read_n (n : nat) (p : process) (input : prophet_input) (ri : nat)
  (fp : Z) (acc : list Z) : res (list Z * process * nat * Z) :=
  match n with
  | O => ROk (acc, p, ri, fp)
  | S k =>
      let* (v, p1, ri1, fp1) := read_prophet_input p input ri fp in
      read_n k p1 input ri1 fp1 (acc ++ [v])
  end.

Fixpoint read_inputs (p : process) (ins : list prophet_input) (ri : nat)
  (fp : Z) (acc : list Z) : res (list Z * process) :=
  match ins with
  | [] => ROk (acc, p)
  | input :: r =>
      let* (acc1, p1, ri1, fp1) := read_n (Z.to_nat (length input)) p input ri fp acc in
      read_inputs p1 r ri1 fp1 acc1
  end.

(** the capture group of the regular expression of [Process::prophet]:
    the text between a leading "%{" and a trailing "%}"; [None] makes
    the [unwrap] panic *)
Definition code_body (l : list ascii) : option (list ascii) :=
  match l with
  | "%"%char :: "{"%char :: rest =>
      match rev rest with
      | "}"%char :: "%"%char :: rb => Some (rev rb)
      | _ => None
      end
  | _ => None
  end.

(** the loop of [Process::prophet] writing the outputs at [psp] *)
Fixpoint write_outputs (p : process) (values : list Z) : res process :=
  match values with
  | [] => ROk p
  | v :: r =>
      let* m := mem_write (memory p) (psp p) 0 None WriteOnce OpWrite
                  LockFalse 1 0 0 v in
      let p1 := set_memory p m in
      write_outputs (set_psp_hp p1 (add_raw (psp p1) 1) (hp p1)) r
  end.

(** [Process::prophet] *)
Definition process_prophet (run : interpreter) (p : process) (ph : prophet)
  : res process :=
  match code_body (code ph) with
  | None => panic
  | Some body =>
      let* (values, p1) :=
        read_inputs p (inputs ph) PROPHET_INPUT_REG_START_INDEX
          PROPHET_INPUT_FP_START_OFFSET [] in
      match run body (hp p1) values with
      | None => ROk p1
      | Some (Single _) => RHalt (HErr ParseIntError)
      | Some (Multiple vs) =>
          match rev vs with
          | [] => panic
          | last :: rinit =>
              write_outputs (set_psp_hp p1 (psp p1) last) (rev rinit)
          end
      end
  end.

Definition insert_step (t : trace) (c pcs : Z) : trace :=
  {| cpu := cpu t ++ [(c, pcs)]; rangecheck := rangecheck t;
     mem_rows := mem_rows t |}.
Definition insert_rangecheck (t : trace) (v : Z) : trace :=
  {| cpu := cpu t; rangecheck := rangecheck t ++ [v]; mem_rows := mem_rows t |}.

Definition advance (p : process) (i : instr) : process := set_pc p (pc p + step i).

(** [self.register_selector.op1_reg_sel[op1_index] = 1] for an operand
    that [get_index_value] returns as [RegName(op1_index)], written without
    the guard of the [mov]/[not] arm: [RegisterSelector] (not in the
    sources) has one selector per register, so the register number
    [REG_NOT_USED] of the PSP operand is out of bounds and panics. *)
Definition sel_op1 (t : tok) : res unit :=
  match t with
  | TReg i => if Nat.ltb i REGISTER_NUM then ROk tt else panic
  | TImm _ => ROk tt
  end.

(** [TREE_VALUE_LEN] of [core::types::merkle_tree] (not in the sources):
    the four elements of a slot key, a tree key and a tree value *)
Definition TREE_VALUE_LEN : nat := 4.

(** [tree_key_default()]: four zeros *)
Definition tree_key_default : list Z := [0; 0; 0; 0].

(** [self.registers[start + i]] for [i] in [0..n] *)
Fixpoint regs_range (p : process) (start n : nat) : res (list Z) :=
  match n with
  | O => ROk []
  | S k =>
      let* v := reg p start in
      let* r := regs_range p (S start) k in
      ROk (v :: r)
  end.

(** [self.registers[start + i] = vals[i]] for [i] in [0..n]; an index
    out of either array panics *)
Fixpoint set_regs_from (p : process) (start n : nat) (vals : list Z) : res process :=
  match n with
  | O => ROk p
  | S k =>
      match vals with
      | v :: r => let* p1 := set_reg p start v in set_regs_from p1 (S start) k r
      | [] => panic
      end
  end.

(** [self.ctx_registers_stack.last().unwrap()] *)
Definition last_ctx (p : process) : res Z :=
  match rev (ctx_registers_stack p) with a :: _ => ROk a | [] => panic end.

(** equality of tree keys, elementwise as field elements *)
Fixpoint key_eqb (k1 k2 : list Z) : bool :=
  match k1, k2 with
  | [], [] => true
  | x :: r1, y :: r2 => feq x y && key_eqb r1 r2
  | _, _ => false
  end.

(** [self.storage.trace.get(&tree_key)] *)
Fixpoint slookup (st : storage_trace) (k : list Z) : option (list scell) :=
  match st with
  | [] => None
  | (k', cs) :: r => if key_eqb k' k then Some cs else slookup r k
  end.

(** The arms of the [match opcode.as_str()] of [Process::execute].  The
    [end] arm breaks out of the loop, which [exec_step] handles before it
    gets here; here it changes nothing. *)
Definition exec_arm (h : host) (p : process) (t : trace) (i : instr)
  : res (process * trace) :=
  match mn i with
  | MOV | NOT =>
      let* _ := arity i 2 in
      let* t0 := nth_tok (args i) 0 in
      let* dst := get_reg_index t0 in
      let* t1 := nth_tok (args i) 1 in
      let* value := get_index_value p t1 in
      (* [NEG_ONE - value] does not underflow: [ORDER - 1 - canon value] *)
      let v := match mn i with NOT => NEG_ONE - canon value | _ => value end in
      let* p1 := set_reg p dst v in
      ROk (advance p1 i, t)
  | EQ | NEQ =>
      let* _ := arity i 3 in
      let* t0 := nth_tok (args i) 0 in
      let* dst := get_reg_index t0 in
      let* t1 := nth_tok (args i) 1 in
      let* op0 := get_reg_index t1 in
      let* t2 := nth_tok (args i) 2 in
      let* value := get_index_value p t2 in
      let* a := reg p op0 in
      let* _ := sel_op1 t2 in
      let r := match mn i with NEQ => negb (feq a value) | _ => feq a value end in
      let* p1 := set_reg p dst (b2z r) in
      ROk (advance p1 i, t)
  | ASSERT =>
      let* _ := arity i 2 in
      let* t0 := nth_tok (args i) 0 in
      let* op0 := get_reg_index t0 in
      let* t1 := nth_tok (args i) 1 in
      let* value := get_index_value p t1 in
      let* a := reg p op0 in
      let* _ := sel_op1 t1 in
      if negb (feq a value) then RHalt (HErr (AssertFail a value))
      else ROk (advance p i, t)
  | CJMP =>
      let* _ := arity i 2 in
      let* t0 := nth_tok (args i) 0 in
      let* op0 := get_reg_index t0 in
      let* t1 := nth_tok (args i) 1 in
      let* op1 := get_index_value p t1 in
      let* a := reg p op0 in
      let* _ := sel_op1 t1 in
      if is_one a then ROk (set_pc p op1, t) else ROk (advance p i, t)
  | JMP =>
      let* _ := arity i 1 in
      let* t0 := nth_tok (args i) 0 in
      let* value := get_index_value p t0 in
      let* _ := sel_op1 t0 in
      ROk (set_pc p value, t)
  | ADD | MUL | SUB =>
      let* _ := arity i 3 in
      let* t0 := nth_tok (args i) 0 in
      let* dst := get_reg_index t0 in
      let* t1 := nth_tok (args i) 1 in
      let* op0 := get_reg_index t1 in
      let* t2 := nth_tok (args i) 2 in
      let* op1 := get_index_value p t2 in
      let* a := reg p op0 in
      let* _ := sel_op1 t2 in
      let* r := match mn i with
                | ADD => ROk (canon (add_raw a op1))
                | MUL => ROk (fmul a op1)
                | _ => panic
                end in
      let* p1 := set_reg p dst r in
      ROk (advance p1 i, t)
  | CALL =>
      let* _ := arity i 1 in
      let* t0 := nth_tok (args i) 0 in
      let* call_addr := get_index_value p t0 in
      let* fpv := reg p FP_REG_INDEX in
      let* a1 := sub_u64 fpv 1 in
      let* m1 := mem_write (memory p) a1 (clk p) (Some CALL) ReadWrite OpWrite
                   LockTrue 0 0 0 (pc p + step i) in
      let* a2 := sub_u64 fpv 2 in
      let* (_, m2) := mem_read m1 a2 (clk p) (Some CALL) ReadWrite OpRead
                        LockTrue 0 0 0 in
      ROk (set_pc (set_memory p m2) call_addr, t)
  | RET =>
      let* _ := arity i 0 in
      let* fpv := reg p FP_REG_INDEX in
      let* a1 := sub_u64 fpv 1 in
      let* (v1, m1) := mem_read (memory p) a1 (clk p) (Some RET) ReadWrite
                         OpRead LockTrue 0 0 0 in
      let* a2 := sub_u64 fpv 2 in
      let* (v2, m2) := mem_read m1 a2 (clk p) (Some RET) ReadWrite OpRead
                         LockTrue 0 0 0 in
      fmap_res (set_reg (set_pc (set_memory p m2) v1) FP_REG_INDEX v2)
        (fun p1 => (p1, t))
  | MSTORE =>
      let n := List.length (args i) in
      let* _ := (if Nat.eqb n 3 || Nat.eqb n 2 then ROk tt else panic) in
      let* t0 := nth_tok (args i) 0 in
      let* op1_value := get_index_value p t0 in
      let* t1 := nth_tok (args i) 1 in
      let* op0 := get_reg_index t1 in
      let* value := reg p op0 in
      let* _ := sel_op1 t0 in
      let offset_addr := offset_of i in
      let addr := canon (add_raw op1_value offset_addr) in
      let* m := mem_write (memory p) addr (clk p) (Some MSTORE) ReadWrite
                  OpWrite LockTrue 0 0 0 value in
      ROk (advance (set_memory p m) i, t)
  | MLOAD =>
      let n := List.length (args i) in
      let* _ := (if Nat.eqb n 3 || Nat.eqb n 2 then ROk tt else panic) in
      let* t0 := nth_tok (args i) 0 in
      let* dst := get_reg_index t0 in
      let* t1 := nth_tok (args i) 1 in
      let* op1_value := get_index_value p t1 in
      let offset_addr := offset_of i in
      let* _ := sel_op1 t1 in
      let read_addr := canon (add_raw op1_value offset_addr) in
      let '(rp, rpos, recd, is_rw) := mload_region read_addr in
      let* (v, m) := mem_read (memory p) read_addr (clk p) (Some MLOAD) is_rw
                       OpRead LockTrue rp rpos recd in
      let* p1 := set_reg (set_memory p m) dst v in
      ROk (advance p1 i, t)
  | RANGE =>
      let* _ := arity i 1 in
      let* t0 := nth_tok (args i) 0 in
      let* op1 := get_reg_index t0 in
      let* v := reg p op1 in
      if v >? 4294967295 then RHalt (HErr U32RangeCheckFail)
      else ROk (advance p i, insert_rangecheck t v)
  | AND | OR | XOR =>
      let* _ := arity i 3 in
      let* t0 := nth_tok (args i) 0 in
      let* dst := get_reg_index t0 in
      let* t1 := nth_tok (args i) 1 in
      let* op0 := get_reg_index t1 in
      let* t2 := nth_tok (args i) 2 in
      let* op1 := get_index_value p t2 in
      let* a := reg p op0 in
      let* _ := sel_op1 t2 in
      (* [GoldilocksField(a.0 op b.0)]: the raw result is not reduced *)
      let r := match mn i with
               | AND => Z.land a op1 | OR => Z.lor a op1 | _ => Z.lxor a op1
               end in
      let* p1 := set_reg p dst r in
      ROk (advance p1 i, t)
  | GTE =>
      let* _ := arity i 3 in
      let* t0 := nth_tok (args i) 0 in
      let* dst := get_reg_index t0 in
      let* t1 := nth_tok (args i) 1 in
      let* op0 := get_reg_index t1 in
      let* t2 := nth_tok (args i) 2 in
      let* op1 := get_index_value p t2 in
      let* a := reg p op0 in
      let* _ := sel_op1 t2 in
      let d := b2z (a >=? op1) in
      let* p1 := set_reg p dst d in
      let abs_diff := if is_one d then fsub a op1 else fsub op1 a in
      ROk (advance p1 i, insert_rangecheck t abs_diff)
  | END => ROk (p, t)
  | SSTORE =>
      let* slot_key := regs_range p 1 TREE_VALUE_LEN in
      let* store_value := regs_range p 5 TREE_VALUE_LEN in
      let* address := last_ctx p in
      let tree_key := hashed_key h address slot_key in
      let log := storage_log p ++ [{| sl_write := true; sl_key := tree_key;
                                      sl_value := store_value |}] in
      let* st := storage_write h (storage p) (clk p) tree_key store_value in
      ROk (advance (set_storage p st log) i, t)
  | SLOAD =>
      let* slot_key := regs_range p 1 TREE_VALUE_LEN in
      let* address := last_ctx p in
      let tree_key := hashed_key h address slot_key in
      let* read_value :=
        match slookup (storage p) tree_key with
        | Some data =>
            match rev data with
            | last :: _ => ROk (s_value last)
            | [] => panic
            end
        | None =>
            match account_read h tree_key with
            | Some value => ROk value
            | None => ROk tree_key_default
            end
        end in
      let* p1 := set_regs_from p 1 TREE_VALUE_LEN read_value in
      let log := storage_log p1 ++ [{| sl_write := false; sl_key := tree_key;
                                       sl_value := read_value |}] in
      let* st := storage_read h (storage p1) (clk p1) tree_key in
      ROk (advance (set_storage p1 st log) i, t)
  | POSEIDON =>
      let* input := regs_range p 1 (POSEIDON_INPUT_VALUE_LEN h) in
      let output := poseidon_permutation h input in
      let* p1 := set_regs_from p 1 (POSEIDON_OUTPUT_VALUE_LEN h) output in
      ROk (advance p1 i, t)
  end.

Inductive step_res := Next (p : process) (t : trace) | Stop (p : process) (t : trace).

(** One iteration of the loop of [Process::execute]. *)
Definition exec_step (h : host) (run : interpreter) (prog : program)
  (prophets : list (Z * prophet)) (p : process) (t : trace) : res step_res :=
  match rev (ctx_registers_stack p) with
  | [] => panic
  | _ :: _ =>
      match lookup (table prog) (pc p) with
      | None => panic
      | Some i =>
          let pc_status := pc p in
          match mn i with
          | END => ROk (Stop p (insert_step t (clk p) pc_status))
          | _ =>
              let* (p1, t1) := exec_arm h p t i in
              let* p2 := match lookup prophets pc_status with
                         | Some ph => process_prophet run p1 ph
                         | None => ROk p1
                         end in
              let t2 := insert_step t1 (clk p2) pc_status in
              if pc p2 >=? instrs_len prog then ROk (Stop p2 t2)
              else ROk (Next (set_clk p2 (clk p2 + 1)) t2)
          end
      end
  end.

Inductive outcome := Done (p : process) (t : trace) | Halted (h : halt) | OutOfFuel.

Fixpoint run_loop (h : host) (fuel : nat) (run : interpreter) (prog : program)
  (prophets : list (Z * prophet)) (p : process) (t : trace) : outcome :=
  match fuel with
  | O => OutOfFuel
  | S f =>
      match exec_step h run prog prophets p t with
      | RHalt e => Halted e
      | ROk (Stop p1 t1) => Done p1 t1
      | ROk (Next p1 t1) => run_loop h f run prog prophets p1 t1
      end
  end.

(** the variables of [gen_memory_table] carried from cell to cell *)
Record gm_state := {
  origin_addr : Z; origin_clk : Z; first_row_flag : bool;
  new_addr_flag : bool; write_one_flag : bool }.

(** the body of the inner loop of [Process::gen_memory_table] for one cell:
    the row it pushes and the updated variables *)
Definition gm_cell (canonical_addr : Z) (st : gm_state) (c : cell)
  : res (mem_row * gm_state) :=
  let* (diff_addr_cond, wof) :=
    (if is_one (c_prophet c) then
       let* d := sub_u64 ORDER canonical_addr in ROk (d, true)
     else if is_one (c_poseidon c) then
       let* d0 := sub_u64 ORDER REGION_SPAN in
       let* d := sub_u64 d0 canonical_addr in ROk (d, true)
     else if is_one (c_ecdsa c) then
       let* d0 := sub_u64 ORDER (2 * REGION_SPAN) in
       let* d := sub_u64 d0 canonical_addr in ROk (d, true)
     else ROk (0, write_one_flag st)) in
  let mk diff_addr diff_addr_inv diff_clk rw_unchanged rc :=
    {| r_addr := canonical_addr; r_clk := c_clk c; r_is_rw := c_is_rw c;
       r_op := c_op c; r_is_write := c_is_write c; r_diff_addr := diff_addr;
       r_diff_addr_inv := diff_addr_inv; r_diff_clk := diff_clk;
       r_diff_addr_cond := diff_addr_cond; r_filter := c_filter c;
       r_rw_addr_unchanged := rw_unchanged; r_prophet := c_prophet c;
       r_poseidon := c_poseidon c; r_ecdsa := c_ecdsa c;
       r_value := c_value c; r_rc_value := rc |} in
  let next fr := {| origin_addr := origin_addr st; origin_clk := c_clk c;
                    first_row_flag := fr; new_addr_flag := false;
                    write_one_flag := wof |} in
  if first_row_flag st then
    ROk (mk 0 0 0 0 0, next false)
  else if new_addr_flag st then
    let* diff_addr := sub_u64 canonical_addr (origin_addr st) in
    let* (diff_addr_inv, rc) :=
      (if wof then ROk (0, diff_addr_cond)
       else match inverse diff_addr with
            | Some inv => ROk (inv, diff_addr)
            | None => panic
            end) in
    ROk (mk diff_addr diff_addr_inv 0 0 rc, next false)
  else
    let* diff_clk := sub_u64 (c_clk c) (origin_clk st) in
    let '(rw_unchanged, rc) :=
      if feq (c_is_rw c) 0 then (0, diff_addr_cond) else (1, diff_clk) in
    ROk (mk 0 0 diff_clk rw_unchanged rc, next false).

Fixpoint gm_cells (canonical_addr : Z) (st : gm_state) (cs : list cell)
  : res (list mem_row * gm_state) :=
  match cs with
  | [] => ROk ([], st)
  | c :: r =>
      let* (row, st1) := gm_cell canonical_addr st c in
      let* (rows, st2) := gm_cells canonical_addr st1 r in
      ROk (row :: rows, st2)
  end.

Fixpoint gm_entries (st : gm_state) (m : mem) : res (list mem_row) :=
  match m with
  | [] => ROk []
  | (field_addr, cells) :: r =>
      let canonical_addr := canon field_addr in
      let st0 := {| origin_addr := origin_addr st; origin_clk := origin_clk st;
                    first_row_flag := first_row_flag st; new_addr_flag := true;
                    write_one_flag := false |} in
      let* (rows, st1) := gm_cells canonical_addr st0 cells in
      let st2 := {| origin_addr := canonical_addr; origin_clk := origin_clk st1;
                    first_row_flag := first_row_flag st1;
                    new_addr_flag := new_addr_flag st1;
                    write_one_flag := write_one_flag st1 |} in
      let* rows' := gm_entries st2 r in
      ROk (rows ++ rows')
  end.

(** [Process::gen_memory_table]: the memory rows; each row also sends its
    [rc_value] to the range-check table. *)
Definition gen_memory_table (m : mem) : res (list mem_row) :=
  gm_entries {| origin_addr := 0; origin_clk := 0; first_row_flag := true;
                new_addr_flag := true; write_one_flag := false |} m.

Definition empty_trace : trace := {| cpu := []; rangecheck := []; mem_rows := [] |}.

(** [Process::execute] after decoding: the storage log cleared, the loop,
    the storage tables, then the memory table.  With an empty storage log,
    [gen_storage_hash_table] zips the chunks of [process_block] with no log
    entry and returns no root, and [gen_storage_table] returns at once. *)
Definition execute (h : host) (fuel : nat) (run : interpreter) (prog : program)
  (prophets : list (Z * prophet)) (p : process) : outcome :=
  match run_loop h fuel run prog prophets (set_storage p (storage p) []) empty_trace with
  | Done p1 t1 =>
      let tables :=
        match storage_log p1 with
        | [] => ROk ([], storage p1)
        | log => storage_tables h log (storage p1)
        end in
      match tables with
      | RHalt e => Halted e
      | ROk (storage_rc, st) =>
          let p2 := set_storage p1 st [] in
          match gen_memory_table (memory p2) with
          | ROk rows =>
              Done p2 {| cpu := cpu t1;
                         rangecheck := rangecheck t1 ++ storage_rc ++ map r_rc_value rows;
                         mem_rows := rows |}
          | RHalt e => Halted e
          end
      end
  | o => o
  end.

(** [Process::new] *)
Definition process_new : process :=
  {| clk := 0; ctx_registers_stack := []; registers := repeat 0 REGISTER_NUM;
     pc := 0; psp := PSP_START_ADDR; hp := HP_START_ADDR; memory := [];
     storage := []; storage_log := [] |}.

(** a process ready to run: [Process::new] with a context address pushed *)
Definition process_with_ctx (ctx : Z) : process :=
  {| clk := 0; ctx_registers_stack := [ctx]; registers := repeat 0 REGISTER_NUM;
     pc := 0; psp := PSP_START_ADDR; hp := HP_START_ADDR; memory := [];
     storage := []; storage_log := [] |}.

(** ** Programs of the scenarios, in the decoded form the loop consumes *)

Definition mk (m : mnemonic) (a : list tok) (st : Z) : instr :=
  {| mn := m; args := a; step := st |}.

(** the iterative Fibonacci program of the test [fibo_use_loop_decode]
    (20 words: the loop head [eq] is at pc 8, [end] at pc 19) *)
Definition fibo_program : program :=
  {| instrs_len := 20;
     table :=
       [ (0, mk MOV [TReg 0; TImm 8] 2);
         (2, mk MOV [TReg 1; TImm 1] 2);
         (4, mk MOV [TReg 2; TImm 1] 2);
         (6, mk MOV [TReg 3; TImm 0] 2);
         (8, mk EQ [TReg 4; TReg 0; TReg 3] 1);
         (9, mk CJMP [TReg 4; TImm 19] 2);
         (11, mk ADD [TReg 4; TReg 1; TReg 2] 1);
         (12, mk MOV [TReg 1; TReg 2] 1);
         (13, mk MOV [TReg 2; TReg 4] 1);
         (14, mk MOV [TReg 4; TImm 1] 2);
         (16, mk ADD [TReg 3; TReg 3; TReg 4] 1);
         (17, mk JMP [TImm 8] 2);
         (19, mk END [] 1) ] |}.

(** an interpreter that is never called *)
Definition no_script : interpreter := fun _ _ _ => None.

End Exec.

(* ------------------------------------------------------------------ *)
(** ** [executor/src/runner.rs]: the [OlaRunner] on binary instructions *)

Module Runner.
Import Field Operands Exec.

(** [OlaOpcode] *)
Inductive ola_opcode :=
| OADD | OMUL | OEQ | OAND | OOR | OXOR | ONEQ | OGTE | OASSERT | OMOV | OJMP
| OCJMP | OCALL | ORET | OMLOAD | OMSTORE | OEND | ORC | ONOT.

(** [Prophet] of the binary program: inputs name a register ([anchor]) and
    say where they are stored *)
Record rprophet_input := { anchor : list ascii; stored_in : list ascii }.
Record rprophet := { rcode : list ascii; rinputs : list rprophet_input }.

(** [BinaryInstruction]; [binary_length] is modelled from the spec (2 when
    an operand carries an immediate, else 1; the file is not in the
    sources), here a field of the decoded instruction. *)
Record binstr := {
  opcode : ola_opcode; op0 : option OlaOperand; op1 : option OlaOperand;
  dst : option OlaOperand; bprophet : option rprophet; binary_length : Z }.

(** [OlaContext]: the general registers, pc, clk, psp and the memory *)
Record rctx := { rregs : list Z; rpc : Z; rclk : Z; rpsp : Z; rmem : list (Z * Z) }.

Record runner := {
  instructions : list (Z * binstr); context : rctx; is_ended : bool }.

(** [OlaRunnerError] and the other [bail!]s *)
Inductive runner_error :=
| RunAfterEndedError
| InstructionNotFoundError (clk pc : Z)
| AssertFailError (clk pc op0 op1 : Z)
| FlagNotBinaryError (clk pc flag : Z)
| RangeCheckFailedError (v : Z)
| ProphetReturnTypeError
| OperandError
| InterpreterError
| MemoryReadError (addr : Z).

Inductive rres (A : Type) := ROk' (a : A) | RErr (e : runner_error) | RPanic.
Arguments ROk' {A} a.
Arguments RErr {A} e.
Arguments RPanic {A}.

Definition rbind {A B} (r : rres A) (k : A -> rres B) : rres B :=
  match r with ROk' a => k a | RErr e => RErr e | RPanic => RPanic end.

Notation "'let%' x := r 'in' k" := (rbind r (fun x => k))
  (at level 200, x pattern, r at level 100, k at level 200).

Definition some_or_panic {A} (o : option A) : rres A :=
  match o with Some a => ROk' a | None => RPanic end.

Definition get_register_value (c : rctx) (r : OlaRegister) : rres Z :=
  some_or_panic (nth_error (rregs c) (reg_index r)).

(** [get_operand_value] *)
Definition get_operand_value (c : rctx) (o : OlaOperand) : rres Z :=
  match o with
  | ImmediateOperand v =>
      match to_u64 v with Some x => ROk' x | None => RErr OperandError end
  | RegisterOperand r => get_register_value c r
  | RegisterWithOffset r off =>
      let% a := get_register_value c r in
      match to_u64 off with
      | Some x => ROk' (add_raw a x)
      | None => RErr OperandError
      end
  (* the operand type of the assembler crate has no factor form *)
  | RegisterWithFactor _ _ => RErr OperandError
  | SpecialReg PC => RErr OperandError
  | SpecialReg PSP => ROk' (rpsp c)
  end.

(** [update_dst_reg] *)
Definition update_dst_reg (c : rctx) (v : Z) (o : OlaOperand) : rres rctx :=
  match o with
  | RegisterOperand r =>
      match list_set (rregs c) (reg_index r) v with
      | Some rs => ROk' {| rregs := rs; rpc := rpc c; rclk := rclk c; rpsp := rpsp c;
                           rmem := rmem c |}
      | None => RPanic
      end
  | _ => RErr OperandError
  end.

(** rows appended by one step: the CPU row [(clk, pc)], memory rows
    [(addr, value, is_write, opcode)] and range-check values *)
Record rmem_row := { m_addr : Z; m_value : Z; m_is_write : bool;
                     m_opcode : option ola_opcode }.
Record appender := { a_cpu : Z * Z; a_memory : list rmem_row; a_range_check : list Z }.

Definition rinterpreter := list ascii -> list Z -> option number_ret.

Definition tick (c : rctx) (new_pc : Z) : rctx :=
  {| rregs := rregs c; rpc := new_pc; rclk := rclk c + 1; rpsp := rpsp c;
     rmem := rmem c |}.

(** Modelled from the spec: the memory of [OlaContext] (the file
    [vm/ola_vm.rs] is not in the sources).  [read] gives the value last
    stored at the address, and reading an address never stored is an
    error (the spec: reading an unwritten read-write address is a fault);
    [store_in_segment_read_write] stores a value at an address. *)
Definition ctx_read (c : rctx) (addr : Z) : rres Z :=
  match lookup (rmem c) addr with
  | Some v => ROk' v
  | None => RErr (MemoryReadError addr)
  end.

Definition store_in_segment_read_write (c : rctx) (addr v : Z) : rctx :=
  {| rregs := rregs c; rpc := rpc c; rclk := rclk c; rpsp := rpsp c;
     rmem := (addr, v) :: rmem c |}.

(** Modelled from the spec: [OlaContext::get_fp] (not in the sources) is
    R8, the frame pointer by convention. *)
Definition get_fp (c : rctx) : rres Z := some_or_panic (nth_error (rregs c) 8).

(** [split_register_offset_operand] *)
Definition split_register_offset_operand (c : rctx) (o : OlaOperand) : rres (Z * Z) :=
  match o with
  | RegisterWithOffset r off =>
      let% a := get_register_value c r in
      match to_u64 off with
      | Some x => ROk' (a, x)
      | None => RErr OperandError
      end
  | _ => RErr OperandError
  end.

Definition unwrap_operand (o : option OlaOperand) : rres OlaOperand :=
  some_or_panic o.

Definition is_reg_str (l : list ascii) : bool :=
  if list_eq_dec ascii_dec l (RustStr.s2l "reg") then true else false.

(** [OlaRunner::on_prophet] *)
Definition on_prophet (run : rinterpreter) (c : rctx) (ph : rprophet)
  : rres (list rmem_row * rctx) :=
  let% body := some_or_panic (code_body (rcode ph)) in
  let% values :=
    fold_left (fun acc input =>
      let% vs := acc in
      if is_reg_str (stored_in input) then
        match reg_from_str (anchor input) with
        | Some r => let% v := get_register_value c r in ROk' (vs ++ [canon v])
        | None => RErr OperandError
        end
      else ROk' vs) (rinputs ph) (ROk' []) in
  match run body values with
  | None => RErr InterpreterError
  | Some (Single _) => RErr ProphetReturnTypeError
  | Some (Multiple vs) =>
      let rows := map (fun v => {| m_addr := rpsp c; m_value := v;
                                   m_is_write := true; m_opcode := None |}) vs in
      ROk' (rows, {| rregs := rregs c; rpc := rpc c; rclk := rclk c;
                     rpsp := rpsp c + 1; rmem := rmem c |})
  end.

Definition no_rows (c : rctx) : appender :=
  {| a_cpu := (rclk c, rpc c); a_memory := []; a_range_check := [] |}.

(** [OlaRunner::on_two_operands_arithmetic_op]; [eq] and [neq] invert
    [op0 - op1] when the raw values differ, which panics when they are
    equal as field elements *)
Definition on_two_operands (c : rctx) (i : binstr) : rres (rctx * appender) :=
  let% o0 := unwrap_operand (op0 i) in
  let% o1 := unwrap_operand (op1 i) in
  let% a := get_operand_value c o0 in
  let% b := get_operand_value c o1 in
  let% d :=
    match opcode i with
    | OADD => ROk' (add_raw a b)
    | OMUL => ROk' (mul_raw a b)
    | OEQ =>
        if a =? b then ROk' 1
        else let% _ := some_or_panic (inverse (sub_raw a b)) in ROk' 0
    | OAND => ROk' (Z.land a b)
    | OOR => ROk' (Z.lor a b)
    | OXOR => ROk' (Z.lxor a b)
    | ONEQ =>
        if negb (a =? b) then
          let% _ := some_or_panic (inverse (sub_raw a b)) in ROk' 1
        else ROk' 0
    | OGTE => ROk' (b2z (a >=? b))
    | _ => RErr OperandError
    end in
  let row := no_rows c in
  let c1 := tick c (rpc c + binary_length i) in
  let% od := unwrap_operand (dst i) in
  let% c2 := update_dst_reg c1 d od in
  ROk' (c2, row).

(** the [match instruction.opcode] of [OlaRunner::run_one_step] *)
Definition run_opcode (c : rctx) (i : binstr) : rres (rctx * appender * bool) :=
  match opcode i with
  | OADD | OMUL | OEQ | OAND | OOR | OXOR | ONEQ | OGTE =>
      let% (c1, a) := on_two_operands c i in ROk' (c1, a, false)
  | OASSERT =>
      let% o0 := unwrap_operand (op0 i) in
      let% o1 := unwrap_operand (op1 i) in
      let% x := get_operand_value c o0 in
      let% y := get_operand_value c o1 in
      if negb (x =? y) then RErr (AssertFailError (rclk c) (rpc c) x y)
      else ROk' (tick c (rpc c + binary_length i), no_rows c, false)
  | OMOV =>
      let% o1 := unwrap_operand (op1 i) in
      let% v := get_operand_value c o1 in
      let c1 := tick c (rpc c + binary_length i) in
      let% od := unwrap_operand (dst i) in
      let% c2 := update_dst_reg c1 v od in
      ROk' (c2, no_rows c, false)
  | OJMP =>
      let% o1 := unwrap_operand (op1 i) in
      let% v := get_operand_value c o1 in
      ROk' (tick c v, no_rows c, false)
  | OCJMP =>
      let% o0 := unwrap_operand (op0 i) in
      let% o1 := unwrap_operand (op1 i) in
      let% flag := get_operand_value c o0 in
      let% target := get_operand_value c o1 in
      if negb (flag =? 0) && negb (flag =? 1) then
        RErr (FlagNotBinaryError (rclk c) (rpc c) flag)
      else
        ROk' (tick c (if flag =? 1 then target else rpc c + binary_length i),
              no_rows c, false)
  | OEND => ROk' (c, no_rows c, true)
  | ORC =>
      let% o1 := unwrap_operand (op1 i) in
      let% v0 := get_operand_value c o1 in
      let value := canon v0 in
      if value >=? 2 ^ 32 then RErr (RangeCheckFailedError value)
      else ROk' (tick c (rpc c + binary_length i),
                 {| a_cpu := (rclk c, rpc c); a_memory := [];
                    a_range_check := [v0] |}, false)
  | ONOT =>
      let% o1 := unwrap_operand (op1 i) in
      let% v := get_operand_value c o1 in
      let d := NEG_ONE - canon v in
      let c1 := tick c (rpc c + binary_length i) in
      let% od := unwrap_operand (dst i) in
      let% c2 := update_dst_reg c1 d od in
      ROk' (c2, no_rows c, false)
  | OCALL =>
      let% fp := get_fp c in
      let trace_op0 := sub_raw fp 1 in
      let% o1 := unwrap_operand (op1 i) in
      let% trace_op1 := get_operand_value c o1 in
      let trace_dst := rpc c + binary_length i in
      let trace_aux0 := sub_raw fp 2 in
      let% trace_aux1 := ctx_read c (canon trace_aux0) in
      let rows :=
        [ {| m_addr := canon trace_op0; m_value := trace_dst; m_is_write := true;
             m_opcode := Some OCALL |};
          {| m_addr := canon trace_aux0; m_value := trace_aux1; m_is_write := false;
             m_opcode := Some OCALL |} ] in
      let c1 := tick c (canon trace_op1) in
      ROk' (store_in_segment_read_write c1 (canon trace_op0) trace_dst,
            {| a_cpu := (rclk c, rpc c); a_memory := rows; a_range_check := [] |},
            false)
  | ORET =>
      let% fp := get_fp c in
      let trace_op0 := sub_raw fp 1 in
      let% trace_dst := ctx_read c (canon trace_op0) in
      let trace_aux0 := sub_raw fp 2 in
      let% trace_aux1 := ctx_read c (canon trace_aux0) in
      let rows :=
        [ {| m_addr := canon trace_op0; m_value := trace_dst; m_is_write := false;
             m_opcode := Some ORET |};
          {| m_addr := canon trace_aux0; m_value := trace_aux1; m_is_write := false;
             m_opcode := Some ORET |} ] in
      ROk' (tick c (canon trace_dst),
            {| a_cpu := (rclk c, rpc c); a_memory := rows; a_range_check := [] |},
            false)
  | OMLOAD =>
      let% o1 := unwrap_operand (op1 i) in
      let% (anchor_addr, offset) := split_register_offset_operand c o1 in
      let addr := add_raw anchor_addr offset in
      let% trace_dst := ctx_read c (canon addr) in
      let rows :=
        [ {| m_addr := canon addr; m_value := trace_dst; m_is_write := false;
             m_opcode := Some OMLOAD |} ] in
      let c1 := tick c (rpc c + binary_length i) in
      (* the destination is [instruction.op1], the address operand *)
      let% c2 := update_dst_reg c1 trace_dst o1 in
      ROk' (c2, {| a_cpu := (rclk c, rpc c); a_memory := rows; a_range_check := [] |},
            false)
  | OMSTORE =>
      let% o1 := unwrap_operand (op1 i) in
      let% (anchor_addr, offset) := split_register_offset_operand c o1 in
      let addr := add_raw anchor_addr offset in
      let% o0 := unwrap_operand (op0 i) in
      let% trace_op0 := get_operand_value c o0 in
      let rows :=
        [ {| m_addr := canon addr; m_value := trace_op0; m_is_write := true;
             m_opcode := Some OMSTORE |} ] in
      (* the value is not stored in the context memory *)
      ROk' (tick c (rpc c + binary_length i),
            {| a_cpu := (rclk c, rpc c); a_memory := rows; a_range_check := [] |},
            false)
  end.

(** [OlaRunner::run_one_step] *)
Definition run_one_step (run : rinterpreter) (r : runner) : rres (runner * appender) :=
  if is_ended r then RErr RunAfterEndedError
  else
    let c := context r in
    match lookup (instructions r) (rpc c) with
    | None => RErr (InstructionNotFoundError (rclk c) (rpc c))
    | Some i =>
        let% (c1, a, ended) := run_opcode c i in
        let% (a', c2) :=
          match bprophet i with
          | Some ph =>
              let% (rows, c2) := on_prophet run c1 ph in
              ROk' ({| a_cpu := a_cpu a; a_memory := a_memory a ++ rows;
                       a_range_check := a_range_check a |}, c2)
          | None => ROk' (a, c1)
          end in
        ROk' ({| instructions := instructions r; context := c2;
                 is_ended := ended |}, a')
    end.

(** [n] successive steps, collecting the appenders *)
Fixpoint run_steps (n : nat) (run : rinterpreter) (r : runner)
  : rres (runner * list appender) :=
  match n with
  | O => ROk' (r, [])
  | S k =>
      let% (r1, a) := run_one_step run r in
      let% (r2, l) := run_steps k run r1 in
      ROk' (r2, a :: l)
  end.

End Runner.

(* ------------------------------------------------------------------ *)
(** ** Scenario programs and auxiliary definitions of the statements *)

Module Scenarios.
Import Field RustStr Operands Exec Runner.

(** an immediate operand as the assembler builds it, from its [u64] *)
Definition imm (v : Z) : OlaOperand := ImmediateOperand {| hex := fmt_hex v |}.

Definition bi (o : ola_opcode) (a b d : option OlaOperand) (len : Z) : binstr :=
  {| opcode := o; op0 := a; op1 := b; dst := d; bprophet := None;
     binary_length := len |}.

Definition rreg (r : OlaRegister) : option OlaOperand := Some (RegisterOperand r).

(** a runner at pc 0 with sixteen zero registers *)
Definition runner_of (l : list (Z * binstr)) : runner :=
  {| instructions := l;
     context := {| rregs := repeat 0 REGISTER_NUM; rpc := 0; rclk := 0;
                   rpsp := PSP_START_ADDR; rmem := [] |};
     is_ended := false |}.

Definition no_rscript : rinterpreter := fun _ _ => None.

(** a host for the scenario programs, which have no [sstore], [sload] or
    [poseidon] and so leave the storage log empty: none of its
    collaborators is called *)
Definition scenario_host : host :=
  {| hashed_key := fun _ k => k; account_read := fun _ => None;
     storage_write := fun st _ _ _ => ROk st; storage_read := fun st _ _ => ROk st;
     poseidon_permutation := fun l => l; POSEIDON_INPUT_VALUE_LEN := 8;
     POSEIDON_OUTPUT_VALUE_LEN := 4; storage_tables := fun _ st => ROk ([], st) |}.

(** [mov r4 2; cjmp r4 5; end; end]: a CJMP flag that is neither 0 nor 1 *)
Definition cjmp_program : program :=
  {| instrs_len := 6;
     table := [ (0, mk MOV [TReg 4; TImm 2] 2);
                (2, mk CJMP [TReg 4; TImm 5] 2);
                (4, mk END [] 1);
                (5, mk END [] 1) ] |}.

Definition cjmp_binary : list (Z * binstr) :=
  [ (0, bi OMOV None (Some (imm 2)) (rreg R4) 2);
    (2, bi OCJMP (rreg R4) (Some (imm 5)) None 2);
    (4, bi OEND None None None 1);
    (5, bi OEND None None None 1) ].

(** a prophet whose script returns [Multiple [7; 8; 9]] *)
Definition code_x : list ascii := RustStr.s2l "%{x%}".
Definition ph_789 : prophet := {| code := code_x; inputs := [] |}.
Definition rph_789 : rprophet := {| rcode := code_x; rinputs := [] |}.
Definition script_789 : interpreter := fun _ _ _ => Some (Multiple [7; 8; 9]).
Definition rscript_789 : rinterpreter := fun _ _ => Some (Multiple [7; 8; 9]).

(** the row [OlaRunner::on_prophet] pushes for one value *)
Definition prophet_row (a v : Z) : rmem_row :=
  {| m_addr := a; m_value := v; m_is_write := true; m_opcode := None |}.

(** [mov r1 psp; mstore [r1,0] r0; mov r0 1; mstore [r1,0] r0; end]: two
    stores at the first address of the prophet region, through R1 *)
Definition wo_program : program :=
  {| instrs_len := 8;
     table := [ (0, mk MOV [TReg 1; TReg REG_NOT_USED] 1);
                (1, mk MSTORE [TReg 1; TReg 0; TImm 0] 2);
                (3, mk MOV [TReg 0; TImm 1] 2);
                (5, mk MSTORE [TReg 1; TReg 0; TImm 0] 2);
                (7, mk END [] 1) ] |}.

(** [mstore [psp,0] r0; end]: the store names the PSP operand itself *)
Definition psp_store_program : program :=
  {| instrs_len := 3;
     table := [ (0, mk MSTORE [TReg REG_NOT_USED; TReg 0; TImm 0] 2);
                (2, mk END [] 1) ] |}.

(** [mov r1 100; mstore [r1,0] r0; end], with a prophet on the store that
    reads the stored cell through the reference input [r1] *)
Definition ref_program : program :=
  {| instrs_len := 5;
     table := [ (0, mk MOV [TReg 1; TImm 100] 2);
                (2, mk MSTORE [TReg 1; TReg 0; TImm 0] 2);
                (4, mk END [] 1) ] |}.
Definition ref_prophets : list (Z * prophet) :=
  [ (2, {| code := code_x; inputs := [ {| length := 1; is_ref := true |} ] |}) ].
Definition ref_script : interpreter := fun _ _ _ => Some (Multiple [0]).

(** the differences of a clock column to the previous entry, starting from
    [prev] *)
Fixpoint pair_diffs (prev : Z) (l : list Z) : list Z :=
  match l with
  | [] => []
  | x :: r => (x - prev) :: pair_diffs x r
  end.

(** the [diff_clk] column of one address: 0, then the differences *)
Definition clk_diffs (l : list Z) : list Z :=
  match l with
  | [] => []
  | x :: r => 0 :: pair_diffs x r
  end.

(** [mov r0 p-1; mov r1 2^32-1; or r2 r0 r1; range r2; end], and the same
    program stopped before the range check *)
Definition range_program : program :=
  {| instrs_len := 7;
     table := [ (0, mk MOV [TReg 0; TImm (ORDER - 1)] 2);
                (2, mk MOV [TReg 1; TImm 4294967295] 2);
                (4, mk OR [TReg 2; TReg 0; TReg 1] 1);
                (5, mk RANGE [TReg 2] 1);
                (6, mk END [] 1) ] |}.
Definition or_program : program :=
  {| instrs_len := 6;
     table := [ (0, mk MOV [TReg 0; TImm (ORDER - 1)] 2);
                (2, mk MOV [TReg 1; TImm 4294967295] 2);
                (4, mk OR [TReg 2; TReg 0; TReg 1] 1);
                (5, mk END [] 1) ] |}.
Definition range_binary : list (Z * binstr) :=
  [ (0, bi OMOV None (Some (imm (ORDER - 1))) (rreg R0) 2);
    (2, bi OMOV None (Some (imm 4294967295)) (rreg R1) 2);
    (4, bi OOR (rreg R0) (rreg R1) (rreg R2) 1);
    (5, bi ORC None (rreg R2) None 1);
    (6, bi OEND None None None 1) ].

(** [mov r0 p-1; mov r1 2; or r0 r0 r1; mov r1 1; assert r0 r1; end]:
    R0 holds [p + 1], the field element 1 *)
Definition assert_program : program :=
  {| instrs_len := 9;
     table := [ (0, mk MOV [TReg 0; TImm (ORDER - 1)] 2);
                (2, mk MOV [TReg 1; TImm 2] 2);
                (4, mk OR [TReg 0; TReg 0; TReg 1] 1);
                (5, mk MOV [TReg 1; TImm 1] 2);
                (7, mk ASSERT [TReg 0; TReg 1] 1);
                (8, mk END [] 1) ] |}.
Definition assert_binary : list (Z * binstr) :=
  [ (0, bi OMOV None (Some (imm (ORDER - 1))) (rreg R0) 2);
    (2, bi OMOV None (Some (imm 2)) (rreg R1) 2);
    (4, bi OOR (rreg R0) (rreg R1) (rreg R0) 1);
    (5, bi OMOV None (Some (imm 1)) (rreg R1) 2);
    (7, bi OASSERT (rreg R0) (rreg R1) None 1);
    (8, bi OEND None None None 1) ].

(** the outcome of [OlaOperand::from_str] is an error *)
Definition is_op_err (r : operand_result) : bool :=
  match r with OpErr _ => true | _ => false end.

(** a read-write store cell at clock [k] with value [v] *)
Definition rw_cell (k v : Z) : cell :=
  {| c_clk := k; c_op := Some MSTORE; c_is_rw := ReadWrite; c_is_write := OpWrite;
     c_filter := LockTrue; c_prophet := 0; c_poseidon := 0; c_ecdsa := 0;
     c_value := v |}.

(** a running process (context pushed, registers zero) over memory [m] *)
Definition process_mem (m : mem) : process :=
  {| clk := 5; ctx_registers_stack := [0]; registers := repeat 0 REGISTER_NUM;
     pc := 0; psp := PSP_START_ADDR; hp := HP_START_ADDR; memory := m;
     storage := []; storage_log := [] |}.

(** [mload r0 a 0] *)
Definition mload_at (a : Z) : instr := mk MLOAD [TReg 0; TImm a; TImm 0] 2.

(** the memory left by [ref_program]: a store and a read at clk 1 *)
Definition ref_memory : mem :=
  [(100, [rw_cell 1 0;
          {| c_clk := 1; c_op := None; c_is_rw := ReadWrite; c_is_write := OpRead;
             c_filter := LockFalse; c_prophet := 0; c_poseidon := 0; c_ecdsa := 0;
             c_value := 0 |}])].

End Scenarios.

(* ------------------------------------------------------------------ *)
(** ** [OlaRunner::new_from_instruction_vec] and auxiliary definitions of
    the further properties *)

Module Loader.
Import Field Runner.

(** the loop of [OlaRunner::new_from_instruction_vec]: each instruction is
    inserted into the [HashMap] at the running [index], which then grows by
    its [binary_length] (a [u64] addition, whose overflow panics: [None]).
    The map is an association list; a later insertion shadows an earlier
    one at the same key, as [HashMap::insert] replaces it. *)
Fixpoint index_from (index : Z) (instructions : list (Z * binstr))
  (instruction_vec : list binstr) : option (list (Z * binstr)) :=
  match instruction_vec with
  | [] => Some instructions
  | instruction :: r =>
      let instructions1 := (index, instruction) :: instructions in
      let index1 := index + binary_length instruction in
      if index1 >? U64_MAX then None else index_from index1 instructions1 r
  end.

Definition index_instructions (instruction_vec : list binstr)
  : option (list (Z * binstr)) :=
  index_from 0 [] instruction_vec.

End Loader.

Module Conditions.
Import Field Exec Runner.

(** the total binary length of a list of instructions *)
Fixpoint sum_lengths (l : list binstr) : Z :=
  match l with
  | [] => 0
  | i :: r => binary_length i + sum_lengths r
  end.

(** [c0, c0 + 1, ..., c0 + n - 1] *)
Definition consecutive (c0 : Z) (n : nat) : list Z :=
  map (fun k => c0 + Z.of_nat k) (seq 0 n).

(** the clocks of the cells of one address never decrease *)
Fixpoint clks_nondecreasing (cs : list cell) : bool :=
  match cs with
  | c1 :: ((c2 :: _) as r) => (c_clk c1 <=? c_clk c2) && clks_nondecreasing r
  | _ => true
  end.

(** a Poseidon or ECDSA cell lies at least [2 * REGION_SPAN] below [p] *)
Definition region_ok (a : Z) (c : cell) : bool :=
  negb (is_one (c_poseidon c) || is_one (c_ecdsa c))
  || (a <=? ORDER - 2 * REGION_SPAN).

(** addresses canonical and strictly increasing (above [prev]), clocks of
    each address non-decreasing, region cells in range *)
Fixpoint mem_well_formed_from (prev : Z) (m : mem) : bool :=
  match m with
  | [] => true
  | (a, cs) :: r =>
      (prev <? a) && (0 <=? a) && (a <? ORDER) && clks_nondecreasing cs
      && forallb (region_ok a) cs && mem_well_formed_from a r
  end.

Definition mem_well_formed (m : mem) : bool := mem_well_formed_from (-1) m.

End Conditions.

(* ------------------------------------------------------------------ *)
(** ** Properties *)

Module Proofs.
Import Field RustStr Operands Exec Runner Scenarios.

Ltac bool_to_prop :=
  repeat match goal with
  | H : (_ && _) = true |- _ => apply andb_true_iff in H; destruct H
  | H : (_ && _) = false |- _ => apply andb_false_iff in H; destruct H
  | H : (_ <=? _) = true |- _ => apply Z.leb_le in H
  | H : (_ <=? _) = false |- _ => apply Z.leb_gt in H
  | H : (_ <? _) = true |- _ => apply Z.ltb_lt in H
  | H : (_ <? _) = false |- _ => apply Z.ltb_ge in H
  | H : (_ =? _) = true |- _ => apply Z.eqb_eq in H
  | H : (_ =? _) = false |- _ => apply Z.eqb_neq in H
  | H : (_ >=? _) = _ |- _ => rewrite Z.geb_leb in H
  | H : (_ >? _) = _ |- _ => rewrite Z.gtb_ltb in H
  end.

Ltac zcases :=
  repeat match goal with |- context [if ?b then _ else _] => destruct b eqn:? end;
  bool_to_prop; try reflexivity; try (exfalso; lia).

Lemma to_digit_nonneg r c d : to_digit r c = Some d -> 0 <= d.
Proof.
  unfold to_digit. intros H.
  repeat match type of H with context [if ?b then _ else _] => destruct b eqn:? end;
    bool_to_prop; try discriminate; injection H as <-; lia.
Qed.

Lemma digits_acc_nonneg r acc l v :
  0 <= r -> 0 <= acc -> digits_acc r acc l = Some v -> 0 <= v.
Proof.
  revert acc. induction l as [|c l IH]; simpl; intros acc Hr Ha H.
  - injection H as <-. exact Ha.
  - destruct (to_digit r c) as [d|] eqn:Hd; [|discriminate].
    apply to_digit_nonneg in Hd. apply (IH (acc * r + d)); auto. nia.
Qed.

Lemma to_digit_x r : r <= 16 -> to_digit r "x"%char = None.
Proof. intros Hr. unfold to_digit. simpl. destruct (Z.ltb_spec 33 r); [lia|reflexivity]. Qed.

Lemma to_digit_plus r : to_digit r "+"%char = None.
Proof. reflexivity. Qed.

Lemma to_digit_minus r : to_digit r "-"%char = None.
Proof. reflexivity. Qed.

Lemma digit_neq r c d a : to_digit r c = Some d -> to_digit r a = None -> (c =? a)%char = false.
Proof.
  intros H1 H2. apply Ascii.eqb_neq. intros ->. congruence.
Qed.

Lemma digits_acc_cons r acc c l v :
  digits_acc r acc (c :: l) = Some v -> exists d, to_digit r c = Some d.
Proof. simpl. destruct (to_digit r c); [eauto|discriminate]. Qed.

Lemma trim_0x_digits r acc l v :
  r <= 16 -> digits_acc r acc l = Some v -> trim_0x l = l.
Proof.
  intros Hr H. destruct l as [|c1 [|c2 l]]; try reflexivity.
  simpl in H. destruct (to_digit r c1); [|discriminate].
  apply digits_acc_cons in H as [d2 Hd2].
  simpl. rewrite (digit_neq r c2 d2 "x"%char Hd2 (to_digit_x r Hr)), andb_false_r.
  reflexivity.
Qed.

Lemma starts_with_0x_digits r acc l v :
  r <= 16 -> digits_acc r acc l = Some v -> starts_with_0x l = false.
Proof.
  intros Hr H. destruct l as [|c1 [|c2 l]]; try reflexivity.
  simpl in H. destruct (to_digit r c1); [|discriminate].
  apply digits_acc_cons in H as [d2 Hd2].
  simpl. rewrite (digit_neq r c2 d2 "x"%char Hd2 (to_digit_x r Hr)), andb_false_r.
  reflexivity.
Qed.

Lemma from_str_radix_digits signed r lo hi l v :
  l <> [] -> digits_acc r 0 l = Some v ->
  from_str_radix signed r lo hi l =
  if (lo <=? v) && (v <=? hi) then Some v else None.
Proof.
  intros Hne H. destruct l as [|c l]; [contradiction|].
  pose proof (digits_acc_cons _ _ _ _ _ H) as [d Hd].
  unfold from_str_radix.
  rewrite (digit_neq r c d "+"%char Hd (to_digit_plus r)).
  rewrite (digit_neq r c d "-"%char Hd (to_digit_minus r)), andb_false_r.
  rewrite H. reflexivity.
Qed.

Lemma from_str_radix_minus r lo hi l v :
  l <> [] -> digits_acc r 0 l = Some v ->
  from_str_radix true r lo hi ("-"%char :: l) =
  if (lo <=? - v) && (- v <=? hi) then Some (- v) else None.
Proof.
  intros Hne H. destruct l as [|c l]; [contradiction|].
  unfold from_str_radix. simpl (("-" =? "+")%char). simpl ((true && ("-" =? "-"))%char).
  cbv iota beta. rewrite H. reflexivity.
Qed.

(** C9 (amended): [ImmediateValue::from_str] on a [0x]-prefixed hex
    literal and on a decimal literal with an optional '-' sign. *)
Theorem imm_from_str_literals :
  (forall ds v, ds <> [] -> digits_acc 16 0 ds = Some v ->
     let s := "0"%char :: "x"%char :: ds in
     imm_from_str s =
       if v <? ORDER then ImmOk {| hex := fmt_hex v |}
       else if v <=? U64_MAX then ImmErr (msg_overflow s)
       else ImmErr (msg_not_number s)) /\
  (forall (neg : bool) ds v, ds <> [] -> digits_acc 10 0 ds = Some v ->
     let s := (if neg then ["-"%char] else []) ++ ds in
     let x := if neg then - v else v in
     imm_from_str s =
       if (I128_MIN <=? x) && (x <=? I128_MAX) then
         if x =? I128_MIN then ImmPanic
         else if Z.abs x >=? ORDER then ImmErr (msg_overflow s)
         else ImmOk {| hex := fmt_hex (if x <? 0 then ORDER - Z.abs x else x) |}
       else ImmErr (msg_not_number s)).
Proof.
  split.
  - intros ds v Hne Hd s. subst s. unfold imm_from_str.
    change (starts_with_0x ("0"%char :: "x"%char :: ds)) with true.
    change (trim_0x ("0"%char :: "x"%char :: ds)) with (trim_0x ds).
    rewrite (trim_0x_digits 16 0 ds v ltac:(lia) Hd).
    unfold parse_u64_radix. rewrite (from_str_radix_digits false 16 0 U64_MAX ds v Hne Hd).
    pose proof (digits_acc_nonneg 16 0 ds v ltac:(lia) ltac:(lia) Hd).
    cbv iota beta. unfold U64_MAX, ORDER, Operands.ORDER in *. zcases.
  - intros neg ds v Hne Hd s x. subst s x.
    pose proof (digits_acc_nonneg 10 0 ds v ltac:(lia) ltac:(lia) Hd).
    unfold imm_from_str, parse_i128_radix. destruct neg.
    + destruct ds as [|c ds']; [contradiction|].
      change (starts_with_0x (["-"%char] ++ c :: ds')) with false.
      change (["-"%char] ++ c :: ds') with ("-"%char :: c :: ds').
      rewrite (from_str_radix_minus 10 I128_MIN I128_MAX (c :: ds') v Hne Hd).
      cbv iota beta zeta. unfold I128_MIN, I128_MAX, ORDER, Operands.ORDER in *.
      zcases.
    + change ([] ++ ds) with ds.
      rewrite (starts_with_0x_digits 10 0 ds v ltac:(lia) Hd).
      rewrite (from_str_radix_digits true 10 I128_MIN I128_MAX ds v Hne Hd).
      cbv iota beta zeta. unfold I128_MIN, I128_MAX, ORDER, Operands.ORDER in *.
      zcases.
Qed.

Lemma fmt_hex_prefix v :
  fmt_hex v = "0"%char :: "x"%char :: hex_digits_fuel 16 v.
Proof. unfold fmt_hex. exact eq_refl. Qed.

Lemma imm_ok_hex s v :
  imm_from_str s = ImmOk v -> exists ds, hex v = "0"%char :: "x"%char :: ds.
Proof.
  unfold imm_from_str. cbv zeta. intros H.
  destruct (starts_with_0x s).
  - destruct (parse_u64_radix 16 (trim_0x s)) as [value|]; [|discriminate].
    destruct (value >=? Operands.ORDER); [discriminate|].
    injection H as <-. exists (hex_digits_fuel 16 value). apply fmt_hex_prefix.
  - destruct (parse_i128_radix 10 s) as [value|]; [|discriminate].
    destruct (value >=? Operands.ORDER); [discriminate|].
    destruct (value =? I128_MIN); [discriminate|].
    destruct (value * -1 >=? Operands.ORDER); [discriminate|].
    match type of H with ImmOk {| hex := fmt_hex ?w |} = _ =>
      set (x := w) in H; clearbody x end.
    injection H as <-. eexists. apply fmt_hex_prefix.
Qed.

Lemma special_from_str_head c l : c <> "p"%char -> special_from_str (c :: l) = None.
Proof.
  intros Hc. unfold special_from_str.
  destruct (list_eq_dec ascii_dec (c :: l) (RustStr.s2l "pc")) as [E|_].
  { injection E as E _. contradiction. }
  destruct (list_eq_dec ascii_dec (c :: l) (RustStr.s2l "psp")) as [E|_].
  { injection E as E _. contradiction. }
  reflexivity.
Qed.

Lemma match_reg_offset_hex c1 c2 ds :
  match_reg_offset ("["%char :: c1 :: c2 :: ","%char :: "0"%char :: "x"%char :: ds ++ ["]"%char]) = None.
Proof.
  unfold match_reg_offset.
  change ("0"%char :: "x"%char :: ds ++ ["]"%char]) with (("0"%char :: "x"%char :: ds) ++ ["]"%char]).
  rewrite rev_unit, rev_involutive. simpl. rewrite andb_false_r. reflexivity.
Qed.

(** C10 (amended): printing an operand whose immediate comes from
    [ImmediateValue::from_str] and parsing the text again fails, both for
    an [ImmediateOperand] and for a [RegisterWithOffset]. *)
Theorem asm_token_no_round_trip s v :
  imm_from_str s = ImmOk v ->
  is_op_err (operand_from_str (get_asm_token (ImmediateOperand v))) = true /\
  (forall r, is_op_err (operand_from_str (get_asm_token (RegisterWithOffset r v))) = true).
Proof.
  intros H. destruct (imm_ok_hex s v H) as [ds Hds]. split.
  - simpl get_asm_token. rewrite Hds. unfold operand_from_str. simpl.
    try rewrite special_from_str_head by discriminate. reflexivity.
  - intros r. simpl get_asm_token. rewrite Hds. unfold operand_from_str, reg_token.
    cbn [app]. rewrite match_reg_offset_hex. simpl.
    try rewrite special_from_str_head by discriminate. reflexivity.
Qed.

Lemma asm_token_no_round_trip_witness :
  imm_from_str (RustStr.s2l "5") = ImmOk {| hex := fmt_hex 5 |} /\
  is_op_err (operand_from_str (get_asm_token (ImmediateOperand {| hex := fmt_hex 5 |}))) = true /\
  (forall r, is_op_err (operand_from_str (get_asm_token (RegisterWithOffset r {| hex := fmt_hex 5 |}))) = true).
Proof.
  split; [vm_compute; reflexivity|].
  apply (asm_token_no_round_trip (RustStr.s2l "5")). vm_compute. reflexivity.
Defined.

Lemma imm_from_str_literals_witness :
  imm_from_str (RustStr.s2l "0xf") = ImmOk {| hex := fmt_hex 15 |} /\
  imm_from_str (RustStr.s2l "-7") = ImmOk {| hex := fmt_hex (ORDER - 7) |}.
Proof.
  split.
  - exact (proj1 imm_from_str_literals ["f"%char] 15 ltac:(discriminate) eq_refl).
  - exact (proj2 imm_from_str_literals true ["7"%char] 7 ltac:(discriminate) eq_refl).
Defined.

(** C9: a hex literal of value [2^64 >= p] is refused as not a number,
    not as an overflow, and the decimal literal [-2^127] panics. *)
Lemma imm_from_str_large_literals :
  imm_from_str (RustStr.s2l "0x10000000000000000") =
    ImmErr (msg_not_number (RustStr.s2l "0x10000000000000000")) /\
  TWO64 >= ORDER /\
  imm_from_str (RustStr.s2l "-170141183460469231731687303715884105728") = ImmPanic.
Proof. vm_compute. repeat split; discriminate. Qed.

(** C10: the immediate [5] prints as "0x5", which [OlaOperand::from_str]
    does not parse back. *)
Lemma imm_operand_no_round_trip :
  match imm_from_str (RustStr.s2l "5") with
  | ImmOk v => operand_from_str (get_asm_token (ImmediateOperand v)) <> OpOk (ImmediateOperand v)
  | _ => False
  end.
Proof. vm_compute. discriminate. Qed.

(** C1: in [Process::execute], the flag 2 of [cjmp r4 5] sends the program
    to the next instruction, which ends it normally; the [OlaRunner] stops
    on the same flag with [FlagNotBinaryError]. *)
Theorem cjmp_flag_two_falls_through (h : host) :
  match execute h 10 no_script cjmp_program [] (process_with_ctx 0) with
  | Done p t => nth_error (registers p) 4 = Some 2 /\ cpu t = [(0, 0); (1, 2); (2, 4)]
  | _ => False
  end /\
  run_steps 3 no_rscript (runner_of cjmp_binary) = RErr (FlagNotBinaryError 1 2 2).
Proof. vm_compute. repeat split. Qed.

(** C2: [OlaRunner::on_prophet], for a script returning [Multiple [7; 8; 9]],
    writes the three values, the last one included, at the same address
    [psp], moves [psp] by one, and leaves no heap pointer. *)
Theorem runner_prophet_same_address c :
  on_prophet rscript_789 c rph_789 =
  ROk' ([prophet_row (rpsp c) 7; prophet_row (rpsp c) 8; prophet_row (rpsp c) 9],
        {| rregs := rregs c; rpc := rpc c; rclk := rclk c; rpsp := rpsp c + 1;
           rmem := rmem c |}).
Proof. reflexivity. Qed.

(** [Process::prophet] on the same script writes 7 at [psp], 8 at [psp + 1]
    as prophet cells, and sets [hp] to 9 and [psp] to [psp + 2]. *)
Lemma process_prophet_sequential :
  match process_prophet script_789 (process_with_ctx 0) ph_789 with
  | ROk p =>
      psp p = PSP_START_ADDR + 2 /\ hp p = 9 /\
      map (fun e => (fst e, map c_value (snd e), map c_prophet (snd e))) (memory p) =
        [(PSP_START_ADDR, [7], [1]); (PSP_START_ADDR + 1, [8], [1])]
  | RHalt _ => False
  end.
Proof. vm_compute. repeat split. Qed.

(** C4: two [mstore]s at [psp], the first address of the prophet region,
    made through R1 after [mov r1 psp], both complete, and the memory trace
    has two rows with [is_write = 1] at that address.  (An [mstore] that
    names the PSP operand itself panics on its [op1_reg_sel] index before
    it writes.) *)
Theorem mstore_twice_in_prophet_region (h : host) :
  PSP_START_ADDR >= ORDER - 3 * 2 ^ 32 /\
  match execute h 10 no_script wo_program [] (process_with_ctx 0) with
  | Done _ t =>
      map (fun r => (r_addr r, r_is_write r, r_value r)) (mem_rows t) =
        [(PSP_START_ADDR, 1, 0); (PSP_START_ADDR, 1, 1)]
  | _ => False
  end /\
  execute h 10 no_script psp_store_program [] (process_with_ctx 0) = Halted HPanic.
Proof. vm_compute. repeat split; discriminate. Qed.

(** C5: from [Process::new] the loop panics on the empty context stack; with
    a context pushed, the Fibonacci program ends after 71 steps with
    [R1 = 34] and [R2 = 55]. *)
Theorem fibo_ends_with_55 (h : host) :
  execute h 71 no_script fibo_program [] process_new = Halted HPanic /\
  forall ctx,
  match execute h 71 no_script fibo_program [] (process_with_ctx ctx) with
  | Done p t =>
      nth_error (registers p) 1 = Some 34 /\ nth_error (registers p) 2 = Some 55 /\
      List.length (cpu t) = 71%nat
  | _ => False
  end.
Proof. split; [vm_compute; reflexivity|]. intros ctx. vm_compute. repeat split. Qed.

(** C5: the run of the claim's program ends with [R2 = 55], not 34. *)
Lemma fibo_r2_not_34 :
  match execute scenario_host 71 no_script fibo_program [] (process_with_ctx 0) with
  | Done p _ => nth_error (registers p) 2 <> Some 34
  | _ => False
  end.
Proof. vm_compute. discriminate. Qed.

(** C6: when a prophet on [mstore [r1,0] r0] reads the stored cell, the
    address 100 gets two consecutive rows with the same [clk]. *)
Lemma memory_rows_equal_clk :
  match execute scenario_host 10 ref_script ref_program ref_prophets (process_with_ctx 0) with
  | Done _ t =>
      map (fun r => (r_addr r, r_clk r, r_is_write r, r_diff_clk r)) (mem_rows t) =
        [(100, 1, 1, 0); (100, 1, 0, 0)]
  | _ => False
  end.
Proof. vm_compute. reflexivity. Qed.

(** C7: [range r2] on the raw value [2^64 - 1] of [(p - 1) or (2^32 - 1)],
    whose canonical value [2^32 - 2] is below [2^32], halts with
    [U32RangeCheckFail] in [Process::execute]; the [OlaRunner] passes it. *)
Theorem range_checks_raw_value (h : host) :
  match execute h 10 no_script or_program [] (process_with_ctx 0) with
  | Done p _ => nth_error (registers p) 2 = Some (TWO64 - 1)
  | _ => False
  end /\
  canon (TWO64 - 1) = 2 ^ 32 - 2 /\
  execute h 10 no_script range_program [] (process_with_ctx 0) = Halted (HErr U32RangeCheckFail) /\
  match run_steps 5 no_rscript (runner_of range_binary) with
  | ROk' (r, _) => is_ended r = true
  | _ => False
  end.
Proof. vm_compute. repeat split. Qed.

(** C8: after [or r0 r0 r1] R0 holds [p + 1], the field element 1; with
    [R1 = 1], the [assert r0 r1] of the [OlaRunner] fails, while
    [Process::execute] completes the same program. *)
Theorem runner_assert_raw_compare (h : host) :
  feq (ORDER + 1) 1 = true /\
  run_steps 6 no_rscript (runner_of assert_binary) =
    RErr (AssertFailError 4 7 (ORDER + 1) 1) /\
  match execute h 10 no_script assert_program [] (process_with_ctx 0) with
  | Done p _ => nth_error (registers p) 0 = Some (ORDER + 1)
  | _ => False
  end.
Proof. vm_compute. repeat split. Qed.

Lemma gm_cell_shape a st c row st1 :
  gm_cell a st c = ROk (row, st1) ->
  r_addr row = a /\ r_clk row = c_clk c /\
  r_diff_clk row = (if first_row_flag st || new_addr_flag st then 0
                    else c_clk c - origin_clk st) /\
  first_row_flag st1 = false /\ new_addr_flag st1 = false /\ origin_clk st1 = c_clk c.
Proof.
  unfold gm_cell.
  match goal with |- bind ?r _ = _ -> _ => destruct r as [[dac wof]|h] end;
    cbn [bind]; [|discriminate].
  destruct (first_row_flag st).
  { intros H. injection H as <- <-. repeat split. }
  destruct (new_addr_flag st).
  { destruct (sub_u64 a (origin_addr st)) as [da|h]; cbn [bind]; [|discriminate].
    match goal with |- bind ?r _ = _ -> _ => destruct r as [[inv rc]|h] end;
      cbn [bind]; [|discriminate].
    intros H. injection H as <- <-. repeat split. }
  unfold sub_u64. destruct (Z.ltb_spec (c_clk c) (origin_clk st)); [discriminate|].
  cbn [bind]. destruct (if feq (c_is_rw c) 0 then _ else _) as [ru rc].
  intros Heq. injection Heq as <- <-. repeat split.
Qed.

Lemma gm_cells_shape a cs : forall st rows st1,
  gm_cells a st cs = ROk (rows, st1) ->
  map (fun r => (r_addr r, r_clk r)) rows = map (fun c => (a, c_clk c)) cs /\
  map r_diff_clk rows =
    (if first_row_flag st || new_addr_flag st then clk_diffs (map c_clk cs)
     else pair_diffs (origin_clk st) (map c_clk cs)).
Proof.
  induction cs as [|c cs IH]; intros st rows st1 H.
  - cbn [gm_cells] in H. injection H as <- _. split; [reflexivity|].
    destruct (first_row_flag st || new_addr_flag st); reflexivity.
  - cbn [gm_cells] in H.
    destruct (gm_cell a st c) as [[row st2]|h] eqn:Hc; cbn [bind] in H; [|discriminate].
    destruct (gm_cells a st2 cs) as [[rows2 st3]|h] eqn:Hcs; cbn [bind] in H; [|discriminate].
    injection H as <- _.
    destruct (gm_cell_shape _ _ _ _ _ Hc) as (Ha & Hk & Hd & Hf & Hn & Ho).
    destruct (IH _ _ _ Hcs) as [IH1 IH2].
    rewrite Hf, Hn, Ho in IH2. cbn [orb] in IH2.
    cbn [map]. rewrite Ha, Hk, IH1, Hd, IH2. split; [reflexivity|].
    destruct (first_row_flag st || new_addr_flag st); reflexivity.
Qed.

Lemma gm_entries_shape m : forall st rows,
  gm_entries st m = ROk rows ->
  map (fun r => (r_addr r, r_clk r)) rows =
    flat_map (fun e => map (fun c => (canon (fst e), c_clk c)) (snd e)) m /\
  map r_diff_clk rows = flat_map (fun e => clk_diffs (map c_clk (snd e))) m.
Proof.
  induction m as [|[k cs] m IH]; intros st rows H.
  - cbn [gm_entries] in H. injection H as <-. split; reflexivity.
  - cbn [gm_entries] in H.
    match type of H with bind ?r _ = _ => destruct r as [[rows1 st1]|h] eqn:Hcs end;
      cbn [bind] in H; [|discriminate].
    match type of H with bind ?r _ = _ => destruct r as [rows2|h] eqn:Hr end;
      cbn [bind] in H; [|discriminate].
    injection H as <-.
    destruct (gm_cells_shape _ _ _ _ _ Hcs) as [H1 H2].
    destruct (IH _ _ Hr) as [H3 H4].
    cbn [first_row_flag new_addr_flag orb] in H2. rewrite orb_true_r in H2.
    rewrite !map_app. cbn [flat_map fst snd]. rewrite H1, H2, H3, H4. split; reflexivity.
Qed.

(** C6 (amended): the rows of [gen_memory_table] follow the entries of the
    memory map, one row per recorded cell in recording order; the address
    and clock columns are those of the cells, and [diff_clk] is 0 on the
    first row of an address and otherwise the clock difference to the
    previous row of that address, 0 included. *)
Theorem gen_memory_table_columns m rows :
  gen_memory_table m = ROk rows ->
  map (fun r => (r_addr r, r_clk r)) rows =
    flat_map (fun e => map (fun c => (canon (fst e), c_clk c)) (snd e)) m /\
  map r_diff_clk rows = flat_map (fun e => clk_diffs (map c_clk (snd e))) m.
Proof. apply gm_entries_shape. Qed.

Lemma gen_memory_table_columns_witness :
  let rows := match gen_memory_table ref_memory with ROk r => r | RHalt _ => [] end in
  gen_memory_table ref_memory = ROk rows /\
  map (fun r => (r_addr r, r_clk r)) rows =
    flat_map (fun e => map (fun c => (canon (fst e), c_clk c)) (snd e)) ref_memory /\
  map r_diff_clk rows = flat_map (fun e => clk_diffs (map c_clk (snd e))) ref_memory.
Proof.
  cbv zeta. split; [vm_compute; reflexivity|].
  apply gen_memory_table_columns. vm_compute. reflexivity.
Defined.

Lemma mem_push_find m a c : exists cs, mem_find (mem_push m a c) a = Some (cs ++ [c]).
Proof.
  induction m as [|[k cs] r IH]; cbn [mem_push].
  - exists []. cbn. rewrite Z.eqb_refl. reflexivity.
  - destruct (Z.eqb_spec k a) as [E|E].
    + exists cs. cbn. rewrite (proj2 (Z.eqb_eq k a) E). reflexivity.
    + destruct (a <? k).
      * exists []. cbn. rewrite Z.eqb_refl. reflexivity.
      * cbn. rewrite (proj2 (Z.eqb_neq k a) E). exact IH.
Qed.

Lemma set_reg_memory p i v p1 : set_reg p i v = ROk p1 -> memory p1 = memory p.
Proof. unfold set_reg. destruct (list_set _ _ _); intros H; inversion H; reflexivity. Qed.

(** C3 (amended): the [mload] arm appends to the history of the address it
    reads a cell whose region flags (prophet, poseidon, ecdsa) and
    [is_rw] depend on that address only, with region spans of
    [2^32 - 1 = u32::MAX]. *)
Theorem mload_flags_by_address h p t i :
  mn i = MLOAD ->
  match exec_arm h p t i with
  | ROk (p', _) =>
      exists tk base cs c,
        nth_tok (args i) 1 = ROk tk /\ get_index_value p tk = ROk base /\
        let a := canon (add_raw base (offset_of i)) in
        mem_find (memory p') a = Some (cs ++ [c]) /\
        (c_prophet c, c_poseidon c, c_ecdsa c, c_is_rw c) =
          (if a >=? ORDER - (2 ^ 32 - 1) then (1, 0, 0, WriteOnce)
           else if a >=? ORDER - 2 * (2 ^ 32 - 1) then (0, 1, 0, WriteOnce)
           else if a >=? ORDER - 3 * (2 ^ 32 - 1) then (0, 0, 1, WriteOnce)
           else (0, 0, 0, ReadWrite))
  | RHalt _ => True
  end.
Proof.
  intros Hm. unfold exec_arm. rewrite Hm. cbv zeta.
  match goal with |- context [bind ?r _] => destruct r as [[]|e] end;
    cbn [bind]; [|exact I].
  destruct (nth_tok (args i) 0) as [t0|e]; cbn [bind]; [|exact I].
  destruct (get_reg_index t0) as [d|e]; cbn [bind]; [|exact I].
  destruct (nth_tok (args i) 1) as [t1|e] eqn:Ht1; cbn [bind]; [|exact I].
  destruct (get_index_value p t1) as [base|e] eqn:Hb; cbn [bind]; [|exact I].
  destruct (sel_op1 t1) as [[]|e]; cbn [bind]; [|exact I].
  set (a := canon (add_raw base (offset_of i))).
  destruct (mload_region a) as [[[rp rpos] recd] isrw] eqn:Hreg.
  destruct (mem_read (memory p) a (clk p) (Some MLOAD) isrw OpRead LockTrue rp rpos recd)
    as [[v m']|e] eqn:Hr; cbn [bind]; [|exact I].
  destruct (set_reg (set_memory p m') d v) as [p1|e] eqn:Hs; cbn [bind]; [|exact I].
  apply set_reg_memory in Hs.
  unfold mem_read in Hr.
  destruct (mem_find (memory p) a) as [cs0|]; [|discriminate].
  destruct (rev cs0) as [|last rest]; [discriminate|].
  injection Hr as _ <-.
  change (memory (advance p1 i)) with (memory p1). rewrite Hs. cbn [set_memory memory].
  match goal with |- context [mem_push (memory p) a ?c] =>
    destruct (mem_push_find (memory p) a c) as [cs Hf]; exists t1, base, cs, c end.
  split; [reflexivity|]. split; [exact Hb|]. cbv zeta. split.
  - exact Hf.
  - cbn [c_prophet c_poseidon c_ecdsa c_is_rw]. rewrite <- Hreg. reflexivity.
Qed.

(** the property at a read-write address and at the first address of the
    prophet region *)
Lemma mload_flags_by_address_witness :
  (mn (mload_at 100) = MLOAD /\
  match exec_arm scenario_host (process_mem [(100, [rw_cell 0 7])]) empty_trace (mload_at 100) with
  | ROk (p', _) =>
      exists tk base cs c,
        nth_tok (args (mload_at 100)) 1 = ROk tk /\
        get_index_value (process_mem [(100, [rw_cell 0 7])]) tk = ROk base /\
        let a := canon (add_raw base (offset_of (mload_at 100))) in
        mem_find (memory p') a = Some (cs ++ [c]) /\
        (c_prophet c, c_poseidon c, c_ecdsa c, c_is_rw c) =
          (if a >=? ORDER - (2 ^ 32 - 1) then (1, 0, 0, WriteOnce)
           else if a >=? ORDER - 2 * (2 ^ 32 - 1) then (0, 1, 0, WriteOnce)
           else if a >=? ORDER - 3 * (2 ^ 32 - 1) then (0, 0, 1, WriteOnce)
           else (0, 0, 0, ReadWrite))
  | RHalt _ => True
  end) /\
  (mn (mload_at PSP_START_ADDR) = MLOAD /\
  match exec_arm scenario_host (process_mem [(PSP_START_ADDR, [rw_cell 0 7])]) empty_trace (mload_at PSP_START_ADDR) with
  | ROk (p', _) =>
      exists tk base cs c,
        nth_tok (args (mload_at PSP_START_ADDR)) 1 = ROk tk /\
        get_index_value (process_mem [(PSP_START_ADDR, [rw_cell 0 7])]) tk = ROk base /\
        let a := canon (add_raw base (offset_of (mload_at PSP_START_ADDR))) in
        mem_find (memory p') a = Some (cs ++ [c]) /\
        (c_prophet c, c_poseidon c, c_ecdsa c, c_is_rw c) =
          (if a >=? ORDER - (2 ^ 32 - 1) then (1, 0, 0, WriteOnce)
           else if a >=? ORDER - 2 * (2 ^ 32 - 1) then (0, 1, 0, WriteOnce)
           else if a >=? ORDER - 3 * (2 ^ 32 - 1) then (0, 0, 1, WriteOnce)
           else (0, 0, 0, ReadWrite))
  | RHalt _ => True
  end).
Proof.
  split; [split; [reflexivity|]|split; [reflexivity|]].
  - apply (mload_flags_by_address scenario_host (process_mem [(100, [rw_cell 0 7])])
             empty_trace (mload_at 100)).
    reflexivity.
  - apply (mload_flags_by_address scenario_host
             (process_mem [(PSP_START_ADDR, [rw_cell 0 7])]) empty_trace
             (mload_at PSP_START_ADDR)).
    reflexivity.
Defined.

(** C3: the address [p - 2^32] lies in the interval the claim gives to the
    prophet region, but the [mload] arm files its read as poseidon. *)
Lemma mload_p_minus_2_32_is_poseidon :
  ORDER - 2 ^ 32 <= ORDER - 2 ^ 32 < ORDER /\
  match exec_arm scenario_host (process_mem [(ORDER - 2 ^ 32, [rw_cell 0 7])]) empty_trace
          (mload_at (ORDER - 2 ^ 32)) with
  | ROk (p', _) =>
      option_map (map (fun c => (c_prophet c, c_poseidon c)))
        (mem_find (memory p') (ORDER - 2 ^ 32)) = Some [(0, 0); (0, 1)]
  | RHalt _ => False
  end.
Proof. split; [unfold ORDER; lia|]. vm_compute. reflexivity. Qed.

End Proofs.

(* ------------------------------------------------------------------ *)
(** ** Further properties: operand parsing and evaluation, the loading and
    stepping of the runner, the clocks of [Process::execute], the inputs of
    [Process::prophet] and the memory table *)

Module MoreProofs.
Import Field RustStr Operands Exec Runner Scenarios Loader Conditions Proofs.

Lemma to_digit_hex_char d : 0 <= d < 16 -> to_digit 16 (hex_char d) = Some d.
Proof.
  intros Hd.
  assert (H : d = 0 \/ d = 1 \/ d = 2 \/ d = 3 \/ d = 4 \/ d = 5 \/ d = 6 \/
              d = 7 \/ d = 8 \/ d = 9 \/ d = 10 \/ d = 11 \/ d = 12 \/ d = 13 \/
              d = 14 \/ d = 15) by lia.
  repeat (destruct H as [H|H]; [subst; reflexivity|]). subst. reflexivity.
Qed.

Lemma digits_acc_app r acc l1 l2 :
  digits_acc r acc (l1 ++ l2) =
  match digits_acc r acc l1 with Some a => digits_acc r a l2 | None => None end.
Proof.
  revert acc. induction l1 as [|c l1 IH]; intros acc; [reflexivity|].
  cbn [app digits_acc]. destruct (to_digit r c); [apply IH|reflexivity].
Qed.

Lemma hex_digits_fuel_S f v :
  hex_digits_fuel (S f) v =
  if v <? 16 then [hex_char v] else hex_digits_fuel f (v / 16) ++ [hex_char (v mod 16)].
Proof. reflexivity. Qed.

Lemma hex_digits_ok f : forall v, 0 <= v < 16 ^ Z.of_nat (S f) ->
  digits_acc 16 0 (hex_digits_fuel (S f) v) = Some v.
Proof.
  induction f as [|f IH]; intros v Hv; rewrite hex_digits_fuel_S;
    destruct (Z.ltb_spec v 16).
  - cbn [digits_acc]. rewrite to_digit_hex_char by lia. cbn [digits_acc]. f_equal; lia.
  - cbn in Hv. lia.
  - cbn [digits_acc]. rewrite to_digit_hex_char by lia. cbn [digits_acc]. f_equal; lia.
  - rewrite digits_acc_app, IH.
    + cbn [digits_acc]. rewrite to_digit_hex_char by (apply Z.mod_pos_bound; lia).
      cbn [digits_acc]. f_equal. rewrite (Z.div_mod v 16) at 3 by lia. lia.
    + rewrite Nat2Z.inj_succ, Z.pow_succ_r in Hv by lia.
      split; [apply Z.div_pos; lia|]. apply Z.div_lt_upper_bound; lia.
Qed.

Lemma hex_digits_nonempty f v : hex_digits_fuel (S f) v <> [].
Proof.
  rewrite hex_digits_fuel_S. destruct (v <? 16); [discriminate|].
  intros H. apply app_eq_nil in H as [_ H]. discriminate.
Qed.

(** [ImmediateValue::to_u64] reads back every [u64] printed by [fmt_hex] *)
Lemma to_u64_fmt_hex n : 0 <= n <= U64_MAX -> to_u64 {| hex := fmt_hex n |} = Some n.
Proof.
  intros Hn. unfold to_u64. cbn [hex]. rewrite fmt_hex_prefix.
  assert (Hd : digits_acc 16 0 (hex_digits_fuel 16 n) = Some n).
  { apply hex_digits_ok. unfold U64_MAX in Hn. cbn. lia. }
  pose proof (hex_digits_nonempty 15 n) as Hne.
  set (ds := hex_digits_fuel 16 n) in *. clearbody ds.
  cbn [trim_0x]. change ((("0" =? "0") && ("x" =? "x"))%char) with true. cbv iota.
  rewrite (trim_0x_digits 16 0 ds n) by (lia || exact Hd).
  unfold parse_u64_radix. rewrite (from_str_radix_digits _ _ _ _ ds n Hne Hd).
  zcases.
Qed.

(** what [ImmediateValue::from_str] stores is the [fmt_hex] of a canonical
    value *)
Lemma imm_from_str_canonical s v :
  imm_from_str s = ImmOk v -> exists n, 0 <= n < ORDER /\ hex v = fmt_hex n.
Proof.
  unfold imm_from_str. cbv zeta. intros H.
  destruct (starts_with_0x s).
  - destruct (parse_u64_radix 16 (trim_0x s)) as [value|] eqn:Hp; [|discriminate].
    destruct (Z.geb_spec value Operands.ORDER); [discriminate|].
    injection H as <-. exists value. split; [|reflexivity].
    unfold parse_u64_radix, from_str_radix in Hp.
    destruct (trim_0x s) as [|c r]; [discriminate|].
    repeat match type of Hp with
    | context [match ?x with _ => _ end] => destruct x eqn:?
    end; try discriminate; bool_to_prop; injection Hp as <-;
    unfold Operands.ORDER, ORDER in *; lia.
  - destruct (parse_i128_radix 10 s) as [value|]; [|discriminate].
    destruct (Z.geb_spec value Operands.ORDER); [discriminate|].
    destruct (value =? I128_MIN); [discriminate|].
    destruct (Z.geb_spec (value * -1) Operands.ORDER); [discriminate|].
    match type of H with ImmOk {| hex := fmt_hex ?w |} = _ =>
      remember w as x eqn:Ex end.
    injection H as <-. exists x. split; [|reflexivity].
    unfold Operands.ORDER, ORDER in *.
    destruct (Z.ltb_spec value 0); subst x; lia.
Qed.

Lemma get_register_value_ok c r :
  (9 <= List.length (rregs c))%nat -> exists x, get_register_value c r = ROk' x.
Proof.
  intros Hl. unfold get_register_value.
  destruct (nth_error (rregs c) (reg_index r)) as [x|] eqn:E; [now exists x|].
  apply nth_error_None in E. destruct r; cbn in E; lia.
Qed.

Lemma list_set_spec l i v : (i < List.length l)%nat ->
  exists l', list_set l i v = Some l' /\ List.length l' = List.length l /\
    nth_error l' i = Some v /\ (forall j, j <> i -> nth_error l' j = nth_error l j).
Proof.
  revert i. induction l as [|x l IH]; intros i Hi; cbn in Hi; [lia|].
  destruct i as [|i].
  - exists (v :: l). repeat split. intros [|j] Hj; [contradiction|reflexivity].
  - destruct (IH i ltac:(lia)) as (l' & E & Hlen & Hv & Ho).
    exists (x :: l'). cbn [list_set]. rewrite E. repeat split.
    + cbn. lia.
    + exact Hv.
    + intros [|j] Hj; [reflexivity|]. cbn. apply Ho. lia.
Qed.

Lemma list_set_length l i v l' : list_set l i v = Some l' -> List.length l' = List.length l.
Proof.
  revert i l'. induction l as [|x l IH]; intros [|i] l' H; cbn in H; try discriminate.
  - injection H as <-. reflexivity.
  - destruct (list_set l i v) as [l1|] eqn:E; [|discriminate].
    injection H as <-. cbn. f_equal. eapply IH. exact E.
Qed.

Lemma lookup_cons {A} k (a : A) m pc :
  lookup ((k, a) :: m) pc = if k =? pc then Some a else lookup m pc.
Proof. reflexivity. Qed.

Lemma sum_lengths_nonneg l :
  (forall i, In i l -> 1 <= binary_length i) -> 0 <= sum_lengths l.
Proof.
  induction l as [|i l IH]; intros H; cbn; [lia|].
  pose proof (H i (or_introl eq_refl)). pose proof (IH (fun j Hj => H j (or_intror Hj))). lia.
Qed.

Lemma index_from_spec l : forall idx m,
  0 <= idx -> (forall pc, idx <= pc -> lookup m pc = None) ->
  (forall i, In i l -> 1 <= binary_length i) -> idx + sum_lengths l <= U64_MAX ->
  exists tbl, index_from idx m l = Some tbl /\
    forall pc i, lookup tbl pc = Some i <->
      lookup m pc = Some i \/
      exists k, nth_error l k = Some i /\ pc = idx + sum_lengths (firstn k l).
Proof.
  induction l as [|j l IH]; intros idx m Hidx Hm Hl Hsum.
  - exists m. split; [reflexivity|]. intros pc i. split; [now left|].
    intros [H|[k [Hk _]]]; [exact H|]. destruct k; discriminate.
  - pose proof (Hl j (or_introl eq_refl)) as Hj.
    assert (Hl' : forall i, In i l -> 1 <= binary_length i) by (intros; apply Hl; now right).
    pose proof (sum_lengths_nonneg l Hl') as Hs. cbn [sum_lengths] in Hsum.
    cbn [index_from]. destruct (Z.gtb_spec (idx + binary_length j) U64_MAX); [lia|].
    destruct (IH (idx + binary_length j) ((idx, j) :: m)) as (tbl & E & Ht);
      [lia| |exact Hl'|lia|].
    { intros pc Hpc. rewrite lookup_cons. destruct (Z.eqb_spec idx pc); [lia|]. apply Hm. lia. }
    exists tbl. split; [exact E|]. intros pc i. rewrite Ht, lookup_cons. split.
    + intros [Hq|[k [Hk Hpc]]].
      * destruct (Z.eqb_spec idx pc).
        -- injection Hq as <-. right. exists O. split; [reflexivity|]. cbn. lia.
        -- now left.
      * right. exists (S k). split; [exact Hk|]. cbn [firstn sum_lengths]. lia.
    + intros [Hq|[k [Hk Hpc]]].
      * destruct (Z.eqb_spec idx pc); [|now left].
        rewrite Hm in Hq by lia. discriminate.
      * destruct k as [|k].
        -- injection Hk as <-. left. cbn in Hpc. rewrite (proj2 (Z.eqb_eq idx pc)) by lia.
           reflexivity.
        -- right. exists k. split; [exact Hk|]. cbn [firstn sum_lengths] in Hpc. lia.
Qed.


Ltac rcrunch H :=
  repeat match type of H with
  | rbind ?r _ = _ =>
      let x := fresh "x" in let E := fresh "E" in
      destruct r as [x| |] eqn:E; cbn [rbind] in H; [|discriminate H|discriminate H];
      repeat match type of x with (_ * _)%type => destruct x as [x ?] end;
      cbv beta iota zeta in H
  | (if ?b then _ else _) = _ => destruct b eqn:?; try discriminate H
  end.

Lemma update_dst_reg_frame c v o c' :
  update_dst_reg c v o = ROk' c' ->
  List.length (rregs c') = List.length (rregs c) /\ rpc c' = rpc c /\
  rclk c' = rclk c /\ rpsp c' = rpsp c.
Proof.
  destruct o; cbn; try discriminate.
  destruct (list_set (rregs c) (reg_index register) v) as [rs|] eqn:E; [|discriminate].
  intros H. injection H as <-. cbn. split; [exact (list_set_length _ _ _ _ E)|auto].
Qed.

Ltac dst_frames :=
  repeat match goal with
  | E : update_dst_reg _ _ _ = ROk' _ |- _ =>
      apply update_dst_reg_frame in E; destruct E as (? & ? & ? & ?)
  end.

Lemma on_two_operands_frame c i c' a :
  on_two_operands c i = ROk' (c', a) ->
  a = no_rows c /\ List.length (rregs c') = List.length (rregs c) /\
  rclk c' = rclk c + 1 /\ rpsp c' = rpsp c.
Proof.
  unfold on_two_operands. intros H. rcrunch H. injection H as <- <-.
  dst_frames. cbn [tick rregs rclk rpsp] in *. repeat split; congruence.
Qed.

Lemma run_opcode_frame c i c' a e :
  run_opcode c i = ROk' (c', a, e) ->
  a_cpu a = (rclk c, rpc c) /\ List.length (rregs c') = List.length (rregs c) /\
  rclk c' = rclk c + (if e then 0 else 1) /\ rpsp c' = rpsp c.
Proof.
  unfold run_opcode. destruct (opcode i); intros H; rcrunch H; try discriminate H;
    injection H as <- <- <-;
    try (match goal with E : on_two_operands _ _ = ROk' _ |- _ =>
           apply on_two_operands_frame in E; destruct E as (-> & ? & ? & ?) end);
    dst_frames; cbn [tick store_in_segment_read_write no_rows rregs rclk rpc rpsp a_cpu] in *;
    repeat split; try lia; congruence.
Qed.

Lemma on_prophet_frame run c ph rows c' :
  on_prophet run c ph = ROk' (rows, c') ->
  rregs c' = rregs c /\ rclk c' = rclk c /\ rpc c' = rpc c.
Proof.
  unfold on_prophet. intros H. rcrunch H.
  destruct (run _ _) as [[|]|]; try discriminate H. injection H as _ <-. auto.
Qed.

Lemma consecutive_length c0 n : List.length (consecutive c0 n) = n.
Proof. unfold consecutive. rewrite length_map, length_seq. reflexivity. Qed.

Lemma consecutive_S c0 n : consecutive c0 (S n) = c0 :: consecutive (c0 + 1) n.
Proof.
  unfold consecutive. cbn [seq map]. f_equal; [lia|].
  rewrite <- seq_shift, map_map. apply map_ext. intros k. lia.
Qed.

Lemma run_one_step_frame_aux run r r' a :
  run_one_step run r = ROk' (r', a) ->
  is_ended r = false /\ instructions r' = instructions r /\
  a_cpu a = (rclk (context r), rpc (context r)) /\
  List.length (rregs (context r')) = List.length (rregs (context r)) /\
  rclk (context r') = rclk (context r) + (if is_ended r' then 0 else 1).
Proof.
  unfold run_one_step. destruct (is_ended r) eqn:Ee; [discriminate|].
  destruct (lookup (instructions r) (rpc (context r))) as [i|]; [|discriminate].
  intros H. rcrunch H.
  apply run_opcode_frame in E as (Hcpu & Hlen & Hclk & _).
  destruct (bprophet i) as [ph|].
  - rcrunch E0. injection E0 as <- <-.
    match goal with E : on_prophet _ _ _ = _ |- _ =>
      apply on_prophet_frame in E as (Hr & Hc & _) end.
    injection H as <- <-. cbn. rewrite Hr, Hc. auto.
  - injection E0 as <- <-. injection H as <- <-. cbn. auto.
Qed.

Lemma run_steps_clocks_aux n : forall run r r' l,
  run_steps n run r = ROk' (r', l) ->
  map (fun a => fst (a_cpu a)) l = consecutive (rclk (context r)) n.
Proof.
  induction n as [|k IH]; intros run r r' l H.
  - injection H as _ <-. reflexivity.
  - cbn [run_steps] in H.
    destruct (run_one_step run r) as [[r1 a]| |] eqn:E1; cbn [rbind] in H; try discriminate H.
    destruct (run_steps k run r1) as [[r2 l1]| |] eqn:E2; cbn [rbind] in H; try discriminate H.
    injection H as _ <-.
    pose proof (run_one_step_frame_aux _ _ _ _ E1) as (_ & _ & Hcpu & _ & Hclk).
    rewrite consecutive_S. cbn [map]. rewrite Hcpu. cbn [fst]. f_equal.
    destruct (is_ended r1) eqn:Ee.
    + destruct k as [|k]; [injection E2 as _ <-; reflexivity|].
      cbn [run_steps] in E2. unfold run_one_step at 1 in E2. rewrite Ee in E2. discriminate E2.
    + rewrite (IH _ _ _ _ E2), Hclk. reflexivity.
Qed.

Ltac crunch H :=
  repeat match type of H with
  | bind ?r _ = _ =>
      let x := fresh "x" in let E := fresh "E" in
      destruct r as [x|] eqn:E; cbn [bind] in H; [|discriminate H];
      repeat match type of x with (_ * _)%type => destruct x as [x ?] end;
      cbv beta iota zeta in H
  | fmap_res ?r _ = _ =>
      let x := fresh "x" in let E := fresh "E" in
      destruct r as [x|] eqn:E; cbn [fmap_res] in H; [|discriminate H]
  | (if ?b then _ else _) = _ => destruct b eqn:?; try discriminate H
  | context [mload_region ?a] =>
      destruct (mload_region a) as [[[? ?] ?] ?]; cbv beta iota zeta in H
  end.

Lemma set_reg_frame p i v p1 :
  set_reg p i v = ROk p1 ->
  clk p1 = clk p /\ List.length (registers p1) = List.length (registers p).
Proof.
  unfold set_reg. destruct (list_set (registers p) i v) as [rs|] eqn:E; [|discriminate].
  intros H. injection H as <-. split; [reflexivity|]. exact (list_set_length _ _ _ _ E).
Qed.

Lemma set_regs_from_frame n : forall p start vals p1,
  set_regs_from p start n vals = ROk p1 ->
  clk p1 = clk p /\ List.length (registers p1) = List.length (registers p).
Proof.
  induction n as [|n IH]; intros p start vals p1 H; cbn [set_regs_from] in H.
  - injection H as <-. auto.
  - destruct vals as [|v vals]; [discriminate H|].
    crunch H. apply set_reg_frame in E as [Hc Hl]. apply IH in H as [Hc' Hl']. split; congruence.
Qed.

Ltac reg_frames :=
  repeat match goal with
  | E : set_reg _ _ _ = ROk _ |- _ => apply set_reg_frame in E; destruct E as [? ?]
  | E : set_regs_from _ _ _ _ = ROk _ |- _ => apply set_regs_from_frame in E; destruct E as [? ?]
  end.

Lemma exec_arm_frame h p t i p1 t1 :
  exec_arm h p t i = ROk (p1, t1) ->
  clk p1 = clk p /\ List.length (registers p1) = List.length (registers p) /\
  cpu t1 = cpu t.
Proof.
  unfold exec_arm. destruct (mn i); intros H; crunch H; try discriminate H;
    try (injection H as <- <-); reg_frames;
    cbn [advance set_pc set_memory set_registers set_storage clk registers
         insert_rangecheck cpu] in *;
    repeat split; congruence.
Qed.

Lemma read_prophet_input_frame p input ri fp v p1 ri1 fp1 :
  read_prophet_input p input ri fp = ROk (v, p1, ri1, fp1) ->
  clk p1 = clk p /\ registers p1 = registers p.
Proof.
  unfold read_prophet_input. intros H. crunch H; try discriminate H;
    injection H as <- <- <- <-; crunch E; try discriminate E;
    injection E as <- <- <- <-; cbn; auto.
Qed.

Lemma read_n_frame n : forall p input ri fp acc vs p1 ri1 fp1,
  read_n n p input ri fp acc = ROk (vs, p1, ri1, fp1) ->
  clk p1 = clk p /\ registers p1 = registers p.
Proof.
  induction n as [|n IH]; intros p input ri fp acc vs p1 ri1 fp1 H; cbn [read_n] in H.
  - injection H as _ <- _ _. auto.
  - crunch H. apply IH in H as [-> ->]. eapply read_prophet_input_frame; eassumption.
Qed.

Lemma read_inputs_frame ins : forall p ri fp acc vs p1,
  read_inputs p ins ri fp acc = ROk (vs, p1) ->
  clk p1 = clk p /\ registers p1 = registers p.
Proof.
  induction ins as [|input ins IH]; intros p ri fp acc vs p1 H; cbn [read_inputs] in H.
  - injection H as _ <-. auto.
  - crunch H. apply IH in H as [-> ->]. eapply read_n_frame; eassumption.
Qed.

Lemma write_outputs_frame values : forall p p1,
  write_outputs p values = ROk p1 -> clk p1 = clk p /\ registers p1 = registers p.
Proof.
  induction values as [|v values IH]; intros p p1 H; cbn [write_outputs] in H.
  - injection H as <-. auto.
  - crunch H. apply IH in H as [-> ->]. cbn. auto.
Qed.

Lemma process_prophet_frame run p ph p1 :
  process_prophet run p ph = ROk p1 -> clk p1 = clk p /\ registers p1 = registers p.
Proof.
  unfold process_prophet. destruct (code_body (code ph)) as [body|]; [|discriminate].
  intros H. crunch H. apply read_inputs_frame in E as [Hc Hr].
  match type of H with context [run body ?h ?vals] => destruct (run body h vals) as [[|vs]|] end;
    try discriminate H.
  - destruct (rev vs) as [|last rinit]; [discriminate H|].
    apply write_outputs_frame in H as [-> ->]. cbn. auto.
  - injection H as <-. auto.
Qed.

Lemma exec_step_frame h run prog prophets p t s :
  exec_step h run prog prophets p t = ROk s ->
  match s with
  | Next p1 t1 =>
      clk p1 = clk p + 1 /\ cpu t1 = cpu t ++ [(clk p, pc p)] /\
      List.length (registers p1) = List.length (registers p)
  | Stop p1 t1 =>
      clk p1 = clk p /\ cpu t1 = cpu t ++ [(clk p, pc p)] /\
      List.length (registers p1) = List.length (registers p)
  end.
Proof.
  unfold exec_step. destruct (rev (ctx_registers_stack p)); [discriminate|].
  destruct (lookup (table prog) (pc p)) as [i|]; [|discriminate].
  destruct (mn i); intros H;
    try (injection H as <-; cbn; auto; fail).
  all: crunch H;
    apply exec_arm_frame in E as (Hc & Hl & Ht);
    assert (Hp : clk x0 = clk x /\ registers x0 = registers x)
      by (destruct (lookup prophets (pc p)) as [ph|];
          [eapply process_prophet_frame; exact E0|injection E0 as <-; auto]);
    destruct Hp as [Hc' Hr'];
    injection H as <-; cbn; rewrite ?Ht, ?Hc', ?Hc, ?Hr'; auto.
Qed.

Lemma run_loop_clocks h fuel : forall run prog prophets p t p1 t1,
  run_loop h fuel run prog prophets p t = Done p1 t1 ->
  exists n, map fst (cpu t1) = map fst (cpu t) ++ consecutive (clk p) (S n) /\
    clk p1 = clk p + Z.of_nat n /\
    List.length (registers p1) = List.length (registers p).
Proof.
  induction fuel as [|f IH]; intros run prog prophets p t p1 t1 H; cbn [run_loop] in H;
    [discriminate|].
  destruct (exec_step h run prog prophets p t) as [[p2 t2|p2 t2]|] eqn:E; try discriminate H.
  - apply exec_step_frame in E as (Hc & Ht & Hl).
    destruct (IH _ _ _ _ _ _ _ H) as (n & Hm & Hc1 & Hl1).
    exists (S n). rewrite Hm, Ht, map_app, <- app_assoc, Hc. split; [|split; lia].
    rewrite (consecutive_S (clk p)). reflexivity.
  - apply exec_step_frame in E as (Hc & Ht & Hl). injection H as <- <-.
    exists O. rewrite Ht, map_app. unfold consecutive. cbn. rewrite Z.add_0_r.
    split; [reflexivity|]. split; [lia|exact Hl].
Qed.

Lemma REGION_SPAN_value : REGION_SPAN = 29.
Proof. reflexivity. Qed.

Lemma gm_cell_ok a st c :
  0 <= a < ORDER -> region_ok a c = true ->
  first_row_flag st = true \/ (new_addr_flag st = true /\ 0 <= origin_addr st < a) \/
  (new_addr_flag st = false /\ origin_clk st <= c_clk c) ->
  exists row st1, gm_cell a st c = ROk (row, st1) /\
    new_addr_flag st1 = false /\ origin_clk st1 = c_clk c.
Proof.
  intros Ha Hr Hst. unfold region_ok in Hr. rewrite REGION_SPAN_value in Hr.
  unfold gm_cell, sub_u64. rewrite REGION_SPAN_value. unfold Field.ORDER, Operands.ORDER in *.
  destruct (is_one (c_prophet c)); destruct (is_one (c_poseidon c));
    destruct (is_one (c_ecdsa c)); cbn [negb orb] in Hr; bool_to_prop;
    cbn [bind];
    repeat match goal with |- context [if ?x <? ?y then _ else _] =>
      destruct (Z.ltb_spec x y); [lia|]; cbn [bind] end;
    (destruct (first_row_flag st) eqn:Ef;
      [eexists _, _; split; [reflexivity|split; reflexivity]|]);
    (destruct Hst as [Hst|[[Hn Ho]|[Hn Ho]]]; [discriminate|..]);
    rewrite Hn;
    repeat match goal with |- context [if ?x <? ?y then _ else _] =>
      destruct (Z.ltb_spec x y); [lia|]; cbn [bind] end;
    try (unfold inverse, canon, Field.ORDER;
         destruct (Z.geb_spec (a - origin_addr st) 18446744069414584321); [lia|];
         destruct (Z.eqb_spec (a - origin_addr st) 0); [lia|]; cbn [bind]);
    try (destruct (write_one_flag st); cbn [bind]);
    try (destruct (feq (c_is_rw c) 0));
    eexists _, _; (split; [reflexivity|split; reflexivity]).
Qed.

Lemma gm_cells_ok a cs : forall st,
  0 <= a < ORDER -> forallb (region_ok a) cs = true -> clks_nondecreasing cs = true ->
  match cs with
  | [] => True
  | c :: _ =>
      first_row_flag st = true \/ (new_addr_flag st = true /\ 0 <= origin_addr st < a) \/
      (new_addr_flag st = false /\ origin_clk st <= c_clk c)
  end ->
  exists rows st1, gm_cells a st cs = ROk (rows, st1).
Proof.
  induction cs as [|c cs IH]; intros st Ha Hr Hc Hst; cbn [gm_cells].
  - eauto.
  - cbn [forallb] in Hr. apply andb_true_iff in Hr as [Hr1 Hr2].
    destruct (gm_cell_ok a st c Ha Hr1 Hst) as (row & st1 & E & Hn & Ho).
    rewrite E. cbn [bind].
    assert (Hc2 : clks_nondecreasing cs = true /\
                  match cs with [] => True | c2 :: _ => c_clk c <= c_clk c2 end).
    { destruct cs as [|c2 cs]; [auto|]. cbn [clks_nondecreasing] in Hc.
      apply andb_true_iff in Hc as [H1 H2]. apply Z.leb_le in H1. auto. }
    destruct Hc2 as [Hc2 Hle].
    destruct (IH st1 Ha Hr2 Hc2) as (rows & st2 & E2).
    + destruct cs as [|c2 cs]; [exact I|]. right. right. split; [exact Hn|]. lia.
    + rewrite E2. cbn [bind]. eauto.
Qed.

Lemma gm_entries_ok m : forall prev st,
  mem_well_formed_from prev m = true ->
  first_row_flag st = true \/ (0 <= origin_addr st /\ origin_addr st <= prev) ->
  exists rows, gm_entries st m = ROk rows.
Proof.
  induction m as [|[a cs] m IH]; intros prev st Hm Hst; cbn [gm_entries].
  - eauto.
  - cbn [mem_well_formed_from] in Hm. bool_to_prop.
    assert (Hcanon : canon a = a) by (unfold canon; zcases; lia).
    rewrite Hcanon.
    edestruct (gm_cells_ok a cs
      {| origin_addr := origin_addr st; origin_clk := origin_clk st;
         first_row_flag := first_row_flag st; new_addr_flag := true;
         write_one_flag := false |}) as (rows & st1 & E);
      [unfold Operands.ORDER, Field.ORDER in *; lia|eassumption|eassumption| |].
    + destruct cs as [|c cs]; [exact I|]. cbn.
      destruct Hst as [Hst|Hst]; [now left|]. right. left. lia.
    + rewrite E. cbn [bind].
      match goal with |- context [gm_entries ?st2 m] =>
        destruct (IH a st2) as (rows' & E'); [assumption|right; cbn; lia|] end.
      rewrite E'. cbn [bind]. eauto.
Qed.

(** [ImmediateValue::to_u64] reads back what [ImmediateValue::from_str]
    stored: every parsed immediate holds the lowercase hex form of a
    canonical value [n < p], and [to_u64] returns [n]. *)
Theorem imm_to_u64_round_trip s v :
  imm_from_str s = ImmOk v ->
  exists n, 0 <= n < Field.ORDER /\ hex v = fmt_hex n /\ to_u64 v = Some n.
Proof.
  intros H. destruct (imm_from_str_canonical s v H) as (n & Hn & Hh).
  exists n. split; [exact Hn|]. split; [exact Hh|].
  destruct v as [h]. cbn [hex] in Hh. subst h.
  apply to_u64_fmt_hex. unfold U64_MAX. unfold Field.ORDER, Operands.ORDER in Hn. lia.
Qed.

Lemma imm_to_u64_round_trip_witness :
  imm_from_str (RustStr.s2l "-7") = ImmOk {| hex := fmt_hex (Field.ORDER - 7) |} /\
  exists n, 0 <= n < Field.ORDER /\ hex {| hex := fmt_hex (Field.ORDER - 7) |} = fmt_hex n /\
    to_u64 {| hex := fmt_hex (Field.ORDER - 7) |} = Some n.
Proof.
  split; [vm_compute; reflexivity|].
  apply (imm_to_u64_round_trip (RustStr.s2l "-7")). vm_compute. reflexivity.
Defined.

(** Every operand accepted by [OlaOperand::from_str], except the special
    register [pc], is evaluated by the runner's [get_operand_value]
    without an error, when the context holds the nine registers r0..r8. *)
Theorem parsed_operand_evaluates s o c :
  operand_from_str s = OpOk o -> o <> SpecialReg PC ->
  (9 <= List.length (rregs c))%nat ->
  exists v, get_operand_value c o = ROk' v.
Proof.
  intros H Hpc Hl. unfold operand_from_str in H.
  destruct (match_reg_offset s) as [[str_reg str_offset]|].
  - destruct (reg_from_str str_reg) as [r|]; [|discriminate].
    destruct (imm_from_str str_offset) as [off| |] eqn:Ei; try discriminate.
    injection H as <-. cbn [get_operand_value].
    destruct (get_register_value_ok c r Hl) as [x ->]. cbn [rbind].
    destruct (imm_from_str_canonical _ _ Ei) as (n & Hn & Hh).
    destruct off as [h]. cbn [hex] in Hh. subst h.
    rewrite to_u64_fmt_hex by (unfold U64_MAX; unfold Field.ORDER, Operands.ORDER in Hn; lia). eauto.
  - destruct (reg_pattern s).
    + destruct (reg_from_str s) as [r|]; [|discriminate].
      injection H as <-. apply get_register_value_ok. exact Hl.
    + destruct (signed_digits s).
      * destruct (imm_from_str s) as [v| |] eqn:Ei; try discriminate.
        injection H as <-. cbn [get_operand_value].
        destruct (imm_from_str_canonical _ _ Ei) as (n & Hn & Hh).
        destruct v as [h]. cbn [hex] in Hh. subst h.
        rewrite to_u64_fmt_hex by (unfold U64_MAX; unfold Field.ORDER, Operands.ORDER in Hn; lia). eauto.
      * destruct (special_from_str s) as [[|]|]; try discriminate;
          injection H as <-; [contradiction|]. cbn. eauto.
Qed.

Lemma parsed_operand_evaluates_witness :
  operand_from_str (RustStr.s2l "[r1,-3]") =
    OpOk (RegisterWithOffset R1 {| hex := fmt_hex (Field.ORDER - 3) |}) /\
  exists v, get_operand_value (context (runner_of []))
              (RegisterWithOffset R1 {| hex := fmt_hex (Field.ORDER - 3) |}) = ROk' v.
Proof.
  split; [vm_compute; reflexivity|].
  apply (parsed_operand_evaluates (RustStr.s2l "[r1,-3]")).
  - vm_compute. reflexivity.
  - discriminate.
  - cbn. lia.
Defined.

(** The instruction map built by [OlaRunner::new_from_instruction_vec]
    holds the k-th instruction at the pc equal to the total binary length
    of the instructions before it, and holds nothing else, when every
    instruction is at least one word long and the total length fits in a
    [u64]. *)
Theorem index_instructions_offsets l :
  (forall i, In i l -> 1 <= binary_length i) -> sum_lengths l <= U64_MAX ->
  exists tbl, index_instructions l = Some tbl /\
    forall pc i, lookup tbl pc = Some i <->
      exists k, nth_error l k = Some i /\ pc = sum_lengths (firstn k l).
Proof.
  intros Hl Hs. destruct (index_from_spec l 0 []) as (tbl & E & Ht); auto; [lia|].
  exists tbl. split; [exact E|]. intros pc i. rewrite Ht. cbn [lookup]. split.
  - intros [H|[k [Hk Hpc]]]; [discriminate|]. exists k. split; [exact Hk|lia].
  - intros [k [Hk Hpc]]. right. exists k. split; [exact Hk|lia].
Qed.

Lemma index_instructions_offsets_witness :
  exists tbl, index_instructions [bi OMOV None (Some (imm 5)) (rreg R1) 2;
                                  bi OEND None None None 1] = Some tbl /\
    forall pc i, lookup tbl pc = Some i <->
      exists k, nth_error [bi OMOV None (Some (imm 5)) (rreg R1) 2;
                           bi OEND None None None 1] k = Some i /\
        pc = sum_lengths (firstn k [bi OMOV None (Some (imm 5)) (rreg R1) 2;
                                    bi OEND None None None 1]).
Proof.
  apply index_instructions_offsets.
  - intros i [<-|[<-|[]]]; cbn; lia.
  - vm_compute. discriminate.
Defined.



(** The CPU rows collected over [n] successful steps of the runner carry
    the clocks [clk, clk + 1, ..., clk + n - 1]: an [end] can only be the
    last step, as a step after it fails. *)
Theorem run_steps_consecutive_clocks n run r r' l :
  run_steps n run r = ROk' (r', l) ->
  map (fun a => fst (a_cpu a)) l = consecutive (rclk (context r)) n.
Proof. apply run_steps_clocks_aux. Qed.

Lemma run_steps_consecutive_clocks_witness :
  match run_steps 5 no_rscript (runner_of range_binary) with
  | ROk' (r', l) =>
      map (fun a => fst (a_cpu a)) l = consecutive (rclk (context (runner_of range_binary))) 5
  | _ => False
  end.
Proof.
  destruct (run_steps 5 no_rscript (runner_of range_binary)) as [[r' l]| |] eqn:E.
  - exact (run_steps_consecutive_clocks _ _ _ _ _ E).
  - vm_compute in E. discriminate E.
  - vm_compute in E. discriminate E.
Defined.

(** When [Process::execute] finishes, the CPU rows of the trace carry the
    clocks [clk, clk + 1, ...] from the starting clock, one per executed
    instruction, the final clock is that of the last row, and the number
    of registers is unchanged. *)
Theorem execute_consecutive_clocks h fuel run prog prophets p p1 t1 :
  execute h fuel run prog prophets p = Done p1 t1 ->
  map fst (cpu t1) = consecutive (clk p) (List.length (cpu t1)) /\
  clk p1 = clk p + Z.of_nat (List.length (cpu t1)) - 1 /\
  List.length (registers p1) = List.length (registers p).
Proof.
  unfold execute.
  destruct (run_loop h fuel run prog prophets (set_storage p (storage p) []) empty_trace)
    as [p2 t2| |] eqn:E; try discriminate.
  match goal with |- match ?r with _ => _ end = _ -> _ => destruct r as [[rc st]|e] end;
    [|discriminate].
  destruct (gen_memory_table (memory (set_storage p2 st []))) as [rows|]; [|discriminate].
  intros H. injection H as <- <-. cbn [cpu set_storage clk registers].
  destruct (run_loop_clocks _ _ _ _ _ _ _ _ _ E) as (n & Hm & Hc & Hl).
  cbn [set_storage clk registers] in Hc, Hl.
  cbn [cpu map app] in Hm.
  assert (Hlen : List.length (cpu t2) = S n).
  { rewrite <- (length_map fst), Hm. apply consecutive_length. }
  rewrite Hlen, Hm. split; [reflexivity|]. split; [lia|exact Hl].
Qed.

Lemma execute_consecutive_clocks_witness :
  match execute scenario_host 200 no_script fibo_program [] (process_with_ctx 0) with
  | Done p1 t1 =>
      map fst (cpu t1) = consecutive (clk (process_with_ctx 0)) (List.length (cpu t1)) /\
      clk p1 = clk (process_with_ctx 0) + Z.of_nat (List.length (cpu t1)) - 1 /\
      List.length (registers p1) = List.length (registers (process_with_ctx 0))
  | _ => False
  end.
Proof.
  destruct (execute scenario_host 200 no_script fibo_program [] (process_with_ctx 0))
    as [p1 t1| |] eqn:E.
  - exact (execute_consecutive_clocks _ _ _ _ _ _ _ _ E).
  - vm_compute in E. discriminate E.
  - vm_compute in E. discriminate E.
Defined.

(** [Process::gen_memory_table] never panics (no [u64] underflow, no
    inversion of zero) on a memory whose addresses are canonical and
    strictly increasing, whose clocks never decrease at each address, and
    whose Poseidon and ECDSA cells lie at least [2 * REGION_SPAN] below
    [p]. *)
Theorem gen_memory_table_no_panic m :
  mem_well_formed m = true -> exists rows, gen_memory_table m = ROk rows.
Proof.
  intros H. apply (gm_entries_ok m (-1)); [exact H|]. left. reflexivity.
Qed.

Lemma gen_memory_table_no_panic_witness :
  mem_well_formed ref_memory = true /\ exists rows, gen_memory_table ref_memory = ROk rows.
Proof.
  split; [vm_compute; reflexivity|]. apply gen_memory_table_no_panic. vm_compute. reflexivity.
Defined.

(** The inputs of [Process::prophet] are taken from the registers r1, r2
    and r3, in this order: up to three single, non-reference inputs read
    exactly these registers and leave the process (its memory included)
    unchanged. *)
Theorem prophet_inputs_from_registers p ins r0 r1 r2 r3 rest :
  registers p = r0 :: r1 :: r2 :: r3 :: rest -> (List.length ins <= 3)%nat ->
  Forall (fun input => length input = 1 /\ is_ref input = false) ins ->
  read_inputs p ins PROPHET_INPUT_REG_START_INDEX PROPHET_INPUT_FP_START_OFFSET [] =
    ROk (firstn (List.length ins) [r1; r2; r3], p).
Proof.
  intros Er Hlen Hf. destruct p as [c st regs pc0 psp0 hp0 m sto log]. cbn in Er. subst regs.
  destruct ins as [|i1 [|i2 [|i3 [|i4 ins]]]]; cbn in Hlen; try lia;
    repeat match goal with
    | H : Forall _ (_ :: _) |- _ => inversion H as [|? ? [? ?] ?]; subst; clear H
    end;
    cbn [read_inputs read_n];
    repeat match goal with H : length ?i = 1 |- _ => rewrite H; clear H end;
    change (Z.to_nat 1) with 1%nat; cbn [read_n];
    unfold read_prophet_input, reg;
    repeat match goal with H : is_ref ?i = false |- _ => rewrite H; clear H end;
    reflexivity.
Qed.

Lemma prophet_inputs_from_registers_witness :
  read_inputs (set_registers (process_mem []) [10; 11; 12; 13])
    [{| length := 1; is_ref := false |}; {| length := 1; is_ref := false |}]
    PROPHET_INPUT_REG_START_INDEX PROPHET_INPUT_FP_START_OFFSET [] =
  ROk (firstn 2 [11; 12; 13], set_registers (process_mem []) [10; 11; 12; 13]).
Proof.
  apply (prophet_inputs_from_registers (set_registers (process_mem []) [10; 11; 12; 13])
           [{| length := 1; is_ref := false |}; {| length := 1; is_ref := false |}]
           10 11 12 13 []).
  - reflexivity.
  - cbn. lia.
  - repeat constructor.
Defined.

(** The [mload] arm of [OlaRunner::run_one_step] never completes: the
    address operand it splits must be a register with an offset, and it
    then writes the loaded value through [update_dst_reg] to that same
    operand, which rejects a register with an offset. *)
Theorem runner_mload_never_completes c i :
  opcode i = OMLOAD ->
  match run_opcode c i with ROk' _ => False | _ => True end.
Proof.
  intros Ho. unfold run_opcode. rewrite Ho.
  destruct (unwrap_operand (op1 i)) as [o1| |]; cbn [rbind]; [|exact I|exact I].
  destruct (split_register_offset_operand c o1) as [[a off]| |] eqn:Es;
    cbn [rbind]; [|exact I|exact I].
  destruct o1; cbn [split_register_offset_operand] in Es; try discriminate Es.
  destruct (ctx_read c _); cbn [rbind update_dst_reg]; exact I.
Qed.

Lemma runner_mload_never_completes_witness :
  opcode (bi OMLOAD None (Some (RegisterWithOffset R1 {| hex := fmt_hex 0 |})) (rreg R0) 2)
    = OMLOAD /\
  match run_opcode
          {| rregs := repeat 0 REGISTER_NUM; rpc := 0; rclk := 0; rpsp := PSP_START_ADDR;
             rmem := [(0, 5)] |}
          (bi OMLOAD None (Some (RegisterWithOffset R1 {| hex := fmt_hex 0 |})) (rreg R0) 2)
  with ROk' _ => False | _ => True end.
Proof.
  split; [reflexivity|].
  apply (runner_mload_never_completes
           {| rregs := repeat 0 REGISTER_NUM; rpc := 0; rclk := 0; rpsp := PSP_START_ADDR;
              rmem := [(0, 5)] |}
           (bi OMLOAD None (Some (RegisterWithOffset R1 {| hex := fmt_hex 0 |})) (rreg R0) 2)).
  reflexivity.
Defined.

End MoreProofs.
